(** * The relayer entry point (relayer/src/index.ts)

    A shallow embedding of the relay driver: the module-level constants
    [config] and [types], the async helper [createApi] and the top-level
    async function that connects the target chain, derives the signer,
    connects every source chain and wires the block subscriptions into
    [target.processBlocks(...).subscribe()].

    Asynchronous code is embedded as finite interaction trees ([Async]):
    a node is either a synchronous call or a call whose promise is awaited.
    A small event loop runs the trees; the order in which awaited promises
    settle is chosen by the environment ([env_io_order]). *)

From Stdlib Require Import String List Arith Bool Lia Sorted.
From Stdlib.Strings Require Import Byte.
Import ListNotations.

Local Open Scope string_scope.
Local Open Scope list_scope.

(** ** Data *)

(** [RegistryTypes] of @polkadot/types: type name -> type definition. *)
Definition RegistryTypes := list (string * string).

(** The object returned by [loadConfig()]. *)
Record Config := {
  targetChainUrl : string;
  sourceChainUrls : list string;
  accountSeed : string
}.

(** [new WsProvider(url)]: every construction yields a fresh object, told
    apart by [provider_id]. *)
Record WsProvider := {
  provider_id : nat;
  endpoint : string
}.

(** The resolved value of [ApiPromise.create({ provider, types })]. *)
Record ApiPromise := {
  api_provider : WsProvider;
  api_types : option RegistryTypes
}.

(** The key pair returned by [getAccount(seed)]. *)
Record KeyringPair := { address : string }.

(** Modelled from the spec: the class Target of ./target, which index.ts
    imports and is not among the sources; [new Target({ api, signer })]
    keeps the connection and the signer (spec section 4.3). *)
Record Target := {
  target_api : ApiPromise;
  target_signer : KeyringPair
}.

(** Modelled from the spec: the class Source of ./source, which index.ts
    imports and is not among the sources; [new Source({ api, chain })] keeps
    the connection and the chain identity (spec section 4.1). *)
Record Source := {
  source_api : ApiPromise;
  source_chain : string
}.

(** Modelled from the spec: the sequence of Blocks of one Source (spec
    section 4.1); it is lazy, so it is known by the Source it observes. *)
Record BlockStream := { stream_source : Source }.

(** Modelled from the spec: the sequence of results of a Target over its
    input sequences (spec section 4.3); lazy as well. *)
Record Pipeline := {
  pipe_target : Target;
  pipe_inputs : list BlockStream
}.

(** Modelled from the spec: [source.subscribeBlocks()] of ./source returns
    the source's sequence of Blocks (spec section 4.1). *)
Definition subscribeBlocks (source : Source) : BlockStream :=
  {| stream_source := source |}.

(** Modelled from the spec: [target.processBlocks(sequences)] of ./target
    only constructs the merged and transformed sequence (spec section 4.3). *)
Definition processBlocks (target : Target) (sequences : list BlockStream) : Pipeline :=
  {| pipe_target := target; pipe_inputs := sequences |}.

(** The errors the external capabilities fail with. *)
Inductive Error :=
| ConnectionError (url : string)
| InvalidSeedError (seed : string)
| RpcError (url : string).

(** ** Calls made by the driver *)

(** A call, indexed by the type of what it returns (or of what its promise
    resolves to). *)
Inductive Op : Type -> Type :=
| LoadConfig : Op Config
| NewWsProvider (url : string) : Op WsProvider
| ApiPromise_create (provider : WsProvider) (types : option RegistryTypes) : Op ApiPromise
| GetAccount (seed : string) : Op KeyringPair
| NewTarget (api : ApiPromise) (signer : KeyringPair) : Op Target
| Rpc_system_chain (api : ApiPromise) : Op string
| NewSource (api : ApiPromise) (chain : string) : Op Source
| SubscribeBlocks (source : Source) : Op BlockStream
| ProcessBlocks (target : Target) (subs : list BlockStream) : Op Pipeline
| Subscribe (p : Pipeline) : Op unit.

(** The observable record of a call, as it appears in a run's trace. *)
Inductive Event :=
| EvLoadConfig
| EvNewWsProvider (provider : WsProvider)
| EvApiCreate (provider : WsProvider) (types : option RegistryTypes)
| EvGetAccount (seed : string)
| EvNewTarget (api : ApiPromise) (signer : KeyringPair)
| EvSystemChain (api : ApiPromise)
| EvNewSource (api : ApiPromise) (chain : string)
| EvSubscribeBlocks (source : Source)
| EvProcessBlocks (target : Target) (subs : list BlockStream)
| EvSubscribe (p : Pipeline).

(** [n] is the id the next constructed object gets. *)
Definition event_of {X} (op : Op X) (n : nat) : Event :=
  match op with
  | LoadConfig => EvLoadConfig
  | NewWsProvider url => EvNewWsProvider {| provider_id := n; endpoint := url |}
  | ApiPromise_create p t => EvApiCreate p t
  | GetAccount seed => EvGetAccount seed
  | NewTarget api s => EvNewTarget api s
  | Rpc_system_chain api => EvSystemChain api
  | NewSource api c => EvNewSource api c
  | SubscribeBlocks s => EvSubscribeBlocks s
  | ProcessBlocks t subs => EvProcessBlocks t subs
  | Subscribe p => EvSubscribe p
  end.

(** ** Async functions as interaction trees *)

(** [Call op k]: call [op] and go on with its result; [Await op k]: call
    [op], which returns a promise, and go on when the promise has resolved. *)
Inductive Async (A : Type) : Type :=
| Ret (a : A)
| Call {X} (op : Op X) (k : X -> Async A)
| Await {X} (op : Op X) (k : X -> Async A).

Arguments Ret {A} a.
Arguments Call {A X} op k.
Arguments Await {A X} op k.

Fixpoint abind {A B} (m : Async A) (f : A -> Async B) : Async B :=
  match m with
  | Ret a => f a
  | Call op k => Call op (fun x => abind (k x) f)
  | Await op k => Await op (fun x => abind (k x) f)
  end.

Definition call {X} (op : Op X) : Async X := Call op Ret.
Definition await {X} (op : Op X) : Async X := Await op Ret.

Declare Scope async_scope.
Delimit Scope async_scope with async.
Bind Scope async_scope with Async.
Notation "x <- c ;; k" := (abind c (fun x => k))
  (at level 61, c at next level, right associativity) : async_scope.

(** ** The environment of a run *)

Record World := {
  (** what [loadConfig()] returns *)
  env_config : Config;
  (** whether [ApiPromise.create] on this provider resolves (else it rejects) *)
  env_reachable : WsProvider -> bool;
  (** the answer of [api.rpc.system.chain()], [None] when the request rejects *)
  env_chain : ApiPromise -> option string;
  (** the key pair [getAccount] derives from a seed, [None] when it throws *)
  env_keyring : string -> option KeyringPair;
  (** the order in which awaited promises of concurrent tasks settle: each
      entry picks one of the tasks that are suspended at that moment *)
  env_io_order : list nat
}.

(** How a (part of a) run ends. *)
Inductive Completion (A : Type) :=
| Normal (a : A)
| Thrown (e : Error)
| Stalled.

Arguments Normal {A} a.
Arguments Thrown {A} e.
Arguments Stalled {A}.

(** A task of the event loop: an async function suspended at an [await]
    (with the settlement its promise will have), or a settled one. *)
Inductive Task (A : Type) :=
| Suspended {X} (promise : Error + X) (k : X -> Async A)
| Fulfilled (a : A)
| Rejected (e : Error).

Arguments Suspended {A X} promise k.
Arguments Fulfilled {A} a.
Arguments Rejected {A} e.

Definition is_suspended {A} (t : Task A) : bool :=
  match t with Suspended _ _ => true | _ => false end.

(** ** Running async functions *)

Section Run.

Variable w : World.

(** The result of a call, with the next free object id. *)
Definition perform {X} (op : Op X) (n : nat) : nat * (Error + X) :=
  match op in Op X return nat * (Error + X) with
  | LoadConfig => (n, inr (env_config w))
  | NewWsProvider url => (S n, inr {| provider_id := n; endpoint := url |})
  | ApiPromise_create p t =>
      (n, if env_reachable w p
          then inr {| api_provider := p; api_types := t |}
          else inl (ConnectionError (endpoint p)))
  | GetAccount seed =>
      (n, match env_keyring w seed with
          | Some kp => inr kp
          | None => inl (InvalidSeedError seed)
          end)
  | NewTarget api s => (n, inr {| target_api := api; target_signer := s |})
  | Rpc_system_chain api =>
      (n, match env_chain w api with
          | Some c => inr c
          | None => inl (RpcError (endpoint (api_provider api)))
          end)
  | NewSource api c => (n, inr {| source_api := api; source_chain := c |})
  | SubscribeBlocks s => (n, inr (subscribeBlocks s))
  | ProcessBlocks t subs => (n, inr (processBlocks t subs))
  | Subscribe p => (n, inr tt)
  end.

(** Runs an async function up to its next [await] (or its end): what JS does
    synchronously when the function is called or resumed. *)
Fixpoint advance {A} (t : Async A) (n : nat) : list Event * nat * Task A :=
  match t with
  | Ret a => ([], n, Fulfilled a)
  | Call op k =>
      match perform op n with
      | (n', inl e) => ([event_of op n], n', Rejected e)
      | (n', inr x) =>
          let '(evs, n'', t') := advance (k x) n' in
          (event_of op n :: evs, n'', t')
      end
  | Await op k =>
      let (n', r) := perform op n in
      ([event_of op n], n', Suspended r k)
  end.

(** Resumes a task whose awaited promise has settled. *)
Definition resume {A} (t : Task A) (n : nat) : list Event * nat * Task A :=
  match t with
  | Suspended (inr x) k => advance (k x) n
  | Suspended (inl e) _ => ([], n, Rejected e)
  | _ => ([], n, t)
  end.

(** The number of tasks suspended at an [await]. *)
Fixpoint count_suspended {A} (ts : list (Task A)) : nat :=
  match ts with
  | [] => 0
  | t :: ts' => (if is_suspended t then 1 else 0) + count_suspended ts'
  end.

(** The reason of the first rejected task, in index order. *)
Fixpoint first_rejected {A} (ts : list (Task A)) : option Error :=
  match ts with
  | [] => None
  | Rejected e :: _ => Some e
  | _ :: ts' => first_rejected ts'
  end.

(** The values of the fulfilled tasks, in index order. *)
Fixpoint fulfilled_values {A} (ts : list (Task A)) : list A :=
  match ts with
  | [] => []
  | Fulfilled a :: ts' => a :: fulfilled_values ts'
  | _ :: ts' => fulfilled_values ts'
  end.

(** Resumes the [k]-th of the suspended tasks, leaving the others alone. *)
Fixpoint resume_kth {A} (k : nat) (ts : list (Task A)) (n : nat)
  : list Event * nat * list (Task A) :=
  match ts with
  | [] => ([], n, [])
  | t :: ts' =>
      if is_suspended t then
        match k with
        | 0 => let '(evs, n', t') := resume t n in (evs, n', t' :: ts')
        | S k' => let '(evs, n', ts'') := resume_kth k' ts' n in (evs, n', t :: ts'')
        end
      else
        let '(evs, n', ts'') := resume_kth k ts' n in (evs, n', t :: ts'')
  end.

(** [await Promise.all(tasks)]: rejects with the first rejection, resolves
    to the values in index order once every task is fulfilled; each entry of
    [order] lets one pending promise settle and resumes its task.  When
    [order] runs out the remaining promises never settle.  The caller has no
    [catch]: a rejection ends the run, and the tasks still suspended are not
    resumed any more. *)
Fixpoint event_loop {A} (order : list nat) (ts : list (Task A)) (n : nat)
  : list Event * nat * Completion (list A) :=
  match first_rejected ts with
  | Some e => ([], n, Thrown e)
  | None =>
      match count_suspended ts with
      | 0 => ([], n, Normal (fulfilled_values ts))
      | S m =>
          match order with
          | [] => ([], n, Stalled)
          | c :: order' =>
              let '(evs, n', ts') := resume_kth (c mod S m) ts n in
              let '(evs', n'', r) := event_loop order' ts' n' in
              (evs ++ evs', n'', r)
          end
      end
  end.

(** [urls.map(f)] for an async [f]: every call runs synchronously up to its
    first [await] and returns a promise, in index order. *)
Fixpoint start_all {A} (fs : list (Async A)) (n : nat)
  : list Event * nat * list (Task A) :=
  match fs with
  | [] => ([], n, [])
  | f :: fs' =>
      let '(evs, n', t) := advance f n in
      let '(evs', n'', ts) := start_all fs' n' in
      (evs ++ evs', n'', t :: ts)
  end.

(** The root of the process: given the next free object id, the calls
    made, the next free id afterwards, and how it ended. *)
Definition Proc (A : Type) := nat -> list Event * nat * Completion A.

Definition pret {A} (a : A) : Proc A := fun n => ([], n, Normal a).

Definition pbind {A B} (m : Proc A) (f : A -> Proc B) : Proc B :=
  fun n =>
    let '(evs, n', r) := m n in
    match r with
    | Normal a => let '(evs', n'', r') := f a n' in (evs ++ evs', n'', r')
    | Thrown e => (evs, n', Thrown e)
    | Stalled => (evs, n', Stalled)
    end.

(** An async function run by the root task alone: nothing else is scheduled
    while it awaits, so each awaited promise settles in turn. *)
Fixpoint exec {A} (t : Async A) : Proc A :=
  fun n =>
    match t with
    | Ret a => ([], n, Normal a)
    | Call op k | Await op k =>
        match perform op n with
        | (n', inl e) => ([event_of op n], n', Thrown e)
        | (n', inr x) =>
            let '(evs, n'', r) := exec (k x) n' in
            (event_of op n :: evs, n'', r)
        end
    end.



(** [await Promise.all(xs.map(f))] for an async [f]. *)
Definition Promise_all {A} (fs : list (Async A)) : Proc (list A) :=
  fun n =>
    let '(evs, n', ts) := start_all fs n in
    let '(evs', n'', r) := event_loop (env_io_order w) ts n' in
    (evs ++ evs', n'', r).

(** [xs.map(f)] for a synchronous [f]. *)
Fixpoint map_sync {A B} (f : A -> Async B) (xs : list A) : Proc (list B) :=
  match xs with
  | [] => pret []
  | x :: xs' => pbind (exec (f x)) (fun y => pbind (map_sync f xs') (fun ys => pret (y :: ys)))
  end.

End Run.

Declare Scope proc_scope.
Delimit Scope proc_scope with proc.
Notation "x <- c ;; k" := (pbind c (fun x => k))
  (at level 61, c at next level, right associativity) : proc_scope.

(** ** The program *)

(** [const types = { PutDataObject: "Vec<u8>" }] *)
Definition types : RegistryTypes := [("PutDataObject", "Vec<u8>")].

(** [const createApi = async (url, types?) => ...] *)
Definition createApi (url : string) (types : option RegistryTypes) : Async ApiPromise :=
  (provider <- call (NewWsProvider url) ;;
   api <- await (ApiPromise_create provider types) ;;
   Ret api)%async.

(** The async arrow function mapped over [config.sourceChainUrls];
    [await createApi(url)] continues with the tree of [createApi]. *)
Definition connect_source (url : string) : Async Source :=
  (api <- createApi url None ;;
   chain <- await (Rpc_system_chain api) ;;
   call (NewSource api chain))%async.

(** The top-level async function. *)
Definition iife (w : World) (config : Config) : Proc unit :=
  (targetApi <- exec w (createApi (targetChainUrl config) (Some types)) ;;
   signer <- exec w (call (GetAccount (accountSeed config))) ;;
   target <- exec w (call (NewTarget targetApi signer)) ;;
   sources <- Promise_all w (map connect_source (sourceChainUrls config)) ;;
   blockSubscriptions <- map_sync w (fun source => call (SubscribeBlocks source)) sources ;;
   observable <- exec w (call (ProcessBlocks target blockSubscriptions)) ;;
   exec w (call (Subscribe observable)))%proc.

(** The module body: [const config = loadConfig()], then the call of the
    top-level async function. *)
Definition index (w : World) : Proc unit :=
  (config <- exec w (call LoadConfig) ;;
   iife w config)%proc.

(** A run of the process: the calls it made, in order, and how the top-level
    async function ended. *)
Definition run (w : World) : list Event * Completion unit :=
  let '(evs, _, r) := index w 0 in (evs, r).

Definition trace (w : World) : list Event := fst (run w).
Definition outcome (w : World) : Completion unit := snd (run w).

(** ** The process *)

(** The top-level async function has no [catch] and its promise no handler:
    a rejection is an unhandled rejection, on which Node ends the process
    with exit code 1 (the default since Node 15).  Otherwise the process
    never exits by itself: the open connections keep it running. *)
Definition exit_code (c : Completion unit) : option nat :=
  match c with
  | Thrown _ => Some 1
  | _ => None
  end.





(** ** The source tasks as a phase machine *)

(** Where a task running [connect_source] can be: suspended at
    [await createApi(url)], suspended at [await api.rpc.system.chain()],
    returned from [new Source({ api, chain })], or rejected. *)
Inductive Phase :=
| Connecting
| Querying
| Built (chain : string)
| Failed (e : Error).

(** Whether the task is suspended at an [await]. *)
Definition active (ph : Phase) : bool :=
  match ph with Connecting | Querying => true | _ => false end.

(** The number of promises a task still has to await. *)
Definition awaits_left (ph : Phase) : nat :=
  match ph with Connecting => 2 | Querying => 1 | _ => 0 end.

(** What [createApi(url)] resolves to over provider [p]. *)
Definition source_api_of (p : WsProvider) : ApiPromise :=
  {| api_provider := p; api_types := None |}.

(** The Source [connect_source] returns over provider [p]. *)
Definition source_of (p : WsProvider) (chain : string) : Source :=
  {| source_api := source_api_of p; source_chain := chain |}.

(** The providers constructed for [urls], the first with id [n]. *)
Fixpoint providers_from (n : nat) (urls : list string) : list WsProvider :=
  match urls with
  | [] => []
  | url :: urls' => {| provider_id := n; endpoint := url |} :: providers_from (S n) urls'
  end.

Section Phases.

Variable w : World.

(** The task of the event loop that is in phase [ph] over provider [p]. *)
Definition task_of (st : WsProvider * Phase) : Task Source :=
  let (p, ph) := st in
  match ph with
  | Connecting =>
      Suspended (snd (perform w (ApiPromise_create p None) 0))
        (fun api => (chain <- await (Rpc_system_chain api) ;;
                     call (NewSource api chain))%async)
  | Querying =>
      Suspended (snd (perform w (Rpc_system_chain (source_api_of p)) 0))
        (fun chain => call (NewSource (source_api_of p) chain))
  | Built chain => Fulfilled (source_of p chain)
  | Failed e => Rejected e
  end.

(** What resuming a task in phase [ph] does: the calls it makes and the
    phase it reaches. *)
Definition next (p : WsProvider) (ph : Phase) : list Event * Phase :=
  match ph with
  | Connecting =>
      if env_reachable w p
      then ([EvSystemChain (source_api_of p)], Querying)
      else ([], Failed (ConnectionError (endpoint p)))
  | Querying =>
      match env_chain w (source_api_of p) with
      | Some c => ([EvNewSource (source_api_of p) c], Built c)
      | None => ([], Failed (RpcError (endpoint p)))
      end
  | _ => ([], ph)
  end.

(** The phases a task can be in, given what its chain does. *)
Definition phase_ok (st : WsProvider * Phase) : Prop :=
  let (p, ph) := st in
  match ph with
  | Connecting => True
  | Querying => env_reachable w p = true
  | Built c => env_reachable w p = true /\ env_chain w (source_api_of p) = Some c
  | Failed _ =>
      env_reachable w p = false \/ env_chain w (source_api_of p) = None
  end.

(** The rejection [Promise.all] passes on, if any. *)
Definition first_failed (sts : list (WsProvider * Phase)) : option Error :=
  first_rejected (map task_of sts).

(** The run of the event loop on source tasks, as a step relation. *)
Inductive Loop : list nat -> list (WsProvider * Phase) -> list Event ->
                 Completion (list Source) -> Prop :=
| loop_rejected order sts e :
    first_failed sts = Some e ->
    Loop order sts [] (Thrown e)
| loop_fulfilled order sts :
    first_failed sts = None ->
    count_suspended (map task_of sts) = 0 ->
    Loop order sts [] (Normal (fulfilled_values (map task_of sts)))
| loop_stalled sts :
    first_failed sts = None ->
    count_suspended (map task_of sts) <> 0 ->
    Loop [] sts [] Stalled
| loop_step c order sts1 p ph sts2 evs r :
    first_failed (sts1 ++ (p, ph) :: sts2) = None ->
    active ph = true ->
    Loop order (sts1 ++ (p, snd (next p ph)) :: sts2) evs r ->
    Loop (c :: order) (sts1 ++ (p, ph) :: sts2) (fst (next p ph) ++ evs) r.

End Phases.

(** [Interleaving ls m]: [m] is a merge of the lists [ls] that keeps the
    order inside each of them. *)
Inductive Interleaving {A} : list (list A) -> list A -> Prop :=
| il_done ls : Forall (fun l => l = []) ls -> Interleaving ls []
| il_take ls1 x l ls2 m :
    Interleaving (ls1 ++ l :: ls2) m ->
    Interleaving (ls1 ++ (x :: l) :: ls2) (x :: m).

(** The calls a source task still has to make before it returns. *)
Definition pending_events (w : World) (st : WsProvider * Phase) : list Event :=
  let (p, ph) := st in
  let construct :=
    match env_chain w (source_api_of p) with
    | Some c => [EvNewSource (source_api_of p) c]
    | None => []
    end in
  match ph with
  | Connecting => EvSystemChain (source_api_of p) :: construct
  | Querying => construct
  | _ => []
  end.

(** The number of promises the tasks still have to await. *)
Definition total_awaits (sts : list (WsProvider * Phase)) : nat :=
  list_sum (map (fun st => awaits_left (snd st)) sts).

(** [s] is the Source built over provider [p]: its chain answered both the
    connection and the identity query. *)
Definition built_over (w : World) (p : WsProvider) (s : Source) : Prop :=
  env_reachable w p = true /\
  exists c, env_chain w (source_api_of p) = Some c /\ s = source_of p c.

(** The calls a resumed source task makes. *)
Definition loop_event (e : Event) : bool :=
  match e with EvSystemChain _ | EvNewSource _ _ => true | _ => false end.

(** The calls of one source after its connection is open. *)
Definition source_calls (s : Source) : list Event :=
  [EvSystemChain (source_api s); EvNewSource (source_api s) (source_chain s)].

(** ** The shape of a run *)

(** The calls that open the source connections. *)
Definition open_events (ps : list WsProvider) : list Event :=
  flat_map (fun p => [EvNewWsProvider p; EvApiCreate p None]) ps.

(** The source tasks right after [map] has started them. *)
Definition connecting (ps : list WsProvider) : list (WsProvider * Phase) :=
  map (fun p => (p, Connecting)) ps.

(** The first object constructed is the target's provider. *)
Definition target_provider (w : World) : WsProvider :=
  {| provider_id := 0; endpoint := targetChainUrl (env_config w) |}.

(** What [createApi(config.targetChainUrl, types)] resolves to. *)
Definition target_api_of (w : World) : ApiPromise :=
  {| api_provider := target_provider w; api_types := Some types |}.

(** The Target of a run. *)
Definition target_of (w : World) (signer : KeyringPair) : Target :=
  {| target_api := target_api_of w; target_signer := signer |}.

(** The providers of the source connections: the objects constructed after
    the target's provider, one per configured url. *)
Definition source_providers (w : World) : list WsProvider :=
  providers_from 1 (sourceChainUrls (env_config w)).

(** The calls up to the target connection. *)
Definition connect_target_events (w : World) : list Event :=
  [EvLoadConfig; EvNewWsProvider (target_provider w);
   EvApiCreate (target_provider w) (Some types)].

(** The calls up to the construction of the Target. *)
Definition startup_events (w : World) (signer : KeyringPair) : list Event :=
  connect_target_events w ++
  [EvGetAccount (accountSeed (env_config w));
   EvNewTarget (target_api_of w) signer].

(** The calls after the joint await: the subscriptions are collected, handed
    to [processBlocks], and the result is subscribed to. *)
Definition wiring_events (target : Target) (sources : list Source) : list Event :=
  map EvSubscribeBlocks sources ++
  [EvProcessBlocks target (map subscribeBlocks sources);
   EvSubscribe (processBlocks target (map subscribeBlocks sources))].

(** A connection opened by [connect_source]: any provider but the first. *)
Definition source_connection (e : Event) : bool :=
  match e with
  | EvNewWsProvider p | EvApiCreate p _ => negb (Nat.eqb (provider_id p) 0)
  | _ => false
  end.

(** The calls that wire sources into the target. *)
Definition wiring_event (e : Event) : bool :=
  match e with
  | EvSubscribeBlocks _ | EvProcessBlocks _ _ | EvSubscribe _ => true
  | _ => false
  end.

(** The Sources [subscribeBlocks()] was called on, one entry per call. *)
Definition subscribed (tr : list Event) : list Source :=
  flat_map (fun e => match e with EvSubscribeBlocks s => [s] | _ => [] end) tr.

(** Every awaited source promise can settle and resolves. *)
Definition source_healthy (w : World) (p : WsProvider) : Prop :=
  env_reachable w p = true /\ env_chain w (source_api_of p) <> None.

(** The target connects, the seed yields a key pair, every source is
    healthy, and the environment lets every awaited promise settle. *)
Definition startup_succeeds (w : World) : Prop :=
  env_reachable w (target_provider w) = true /\
  env_keyring w (accountSeed (env_config w)) <> None /\
  Forall (source_healthy w) (source_providers w) /\
  2 * length (sourceChainUrls (env_config w)) <= length (env_io_order w).


(** The call [.subscribe()]. *)
Definition is_subscribe (e : Event) : bool :=
  match e with EvSubscribe _ => true | _ => false end.

(** The call [target.processBlocks(...)]. *)
Definition is_processBlocks (e : Event) : bool :=
  match e with EvProcessBlocks _ _ => true | _ => false end.

(** ** The relay pipeline *)

(** Modelled from the spec: the Block of spec section 3; the classes Source
    (./source) and Target (./target) are imported by index.ts and are not
    among the sources. *)
Record Block := {
  sourceId : string;
  height : nat;
  payload : list Byte.byte
}.

(** Modelled from the spec: the SubmissionRequest of spec section 3, signed. *)
Record Transaction := {
  tx_call : string;
  tx_payload : list Byte.byte;
  tx_nonce : nat;
  tx_signer : KeyringPair
}.

(** Modelled from the spec: the submission statuses of spec sections 4.3
    and 7.  [NonceTooLow ahead]: the account nonce is [S ahead] beyond the
    nonce of the request.  [ConnectionDropped landed] and
    [TemporarilyRejected landed]: the sender is told of a failure; the spec
    does not say whether such a submission can be included all the same, so
    the chain decides ([landed]). *)
Inductive Status :=
| Included
| NonceTooLow (ahead : nat)
| ConnectionDropped (landed : bool)
| TemporarilyRejected (landed : bool)
| PayloadRejected
| InsufficientBalance.

(** Modelled from the spec: whether a submission answered [s] entered the
    chain. *)
Definition landed (s : Status) : bool :=
  match s with
  | Included => true
  | ConnectionDropped l | TemporarilyRejected l => l
  | _ => false
  end.

(** Modelled from the spec: the failures spec section 7 lists as retried. *)
Definition transient (s : Status) : bool :=
  match s with
  | NonceTooLow _ | ConnectionDropped _ | TemporarilyRejected _ => true
  | _ => false
  end.

(** Modelled from the spec: the SubmissionResult of spec section 4.3, and
    the per-block failure of section 7; [source] is the index of the input
    sequence the block came from. *)
Inductive SubmissionResult :=
| Submitted (source : nat) (block : Block) (tx : Transaction)
| NotSubmitted (source : nat) (block : Block) (status : Status).

(** Modelled from the spec: what the chains do while Source and Target
    relay (the chain capabilities of spec section 6). *)
Record Network := {
  (** the new blocks (height, payload) a source connection reports, in order *)
  net_heads : ApiPromise -> list (nat * list Byte.byte);
  (** the arrival order: each entry picks one of the sources that still
      have a block to deliver *)
  net_arrival : list nat;
  (** the target chain's answer to the k-th submission *)
  net_status : nat -> Status;
  (** how often a submission is retried (a design parameter, spec section 7) *)
  net_retries : nat
}.

(** Modelled from the spec: the target chain as the signer's account sees
    it; the account nonce is the shared resource of spec section 5. *)
Record TargetChain := {
  account_nonce : nat;
  (** the transactions of the account the chain has included *)
  ledger : list Transaction;
  (** the number of submissions received *)
  submissions : nat
}.

(** Modelled from the spec: the fixed call of spec section 3. *)
Definition put_data_object : string := "put data object".

(** Modelled from the spec: Source.subscribeBlocks (spec section 4.1): one
    Block per notification of the source's connection, stamped with the
    source's chain identity. *)
Definition blocks_of (net : Network) (s : BlockStream) : list Block :=
  map (fun hp => {| sourceId := source_chain (stream_source s);
                    height := fst hp;
                    payload := snd hp |})
      (net_heads net (source_api (stream_source s))).

(** Modelled from the spec: the input sequences of Target.processBlocks,
    from the [i]-th on, each block tagged with the index of its sequence. *)
Fixpoint queues_from (net : Network) (i : nat) (inputs : list BlockStream)
  : list (list (nat * Block)) :=
  match inputs with
  | [] => []
  | s :: inputs' => map (pair i) (blocks_of net s) :: queues_from net (S i) inputs'
  end.

(** Modelled from the spec: the next arrival (spec section 5): the head of
    the [k]-th source that still has a block to deliver. *)
Fixpoint take_kth {A} (k : nat) (qs : list (list A)) : option (A * list (list A)) :=
  match qs with
  | [] => None
  | [] :: qs' =>
      match take_kth k qs' with
      | Some (x, r) => Some (x, [] :: r)
      | None => None
      end
  | (x :: q) :: qs' =>
      match k with
      | 0 => Some (x, q :: qs')
      | S k' =>
          match take_kth k' qs' with
          | Some (y, r) => Some (y, (x :: q) :: r)
          | None => None
          end
      end
  end.

(** The number of sources that still have a block to deliver. *)
Fixpoint count_nonempty {A} (qs : list (list A)) : nat :=
  match qs with
  | [] => 0
  | [] :: qs' => count_nonempty qs'
  | _ :: qs' => S (count_nonempty qs')
  end.

(** Modelled from the spec: the merge of spec sections 4.3 and 5: blocks
    enter one queue in arrival order. *)
Fixpoint merge {A} (arrival : list nat) (qs : list (list A)) : list A :=
  match arrival with
  | [] => []
  | c :: arrival' =>
      match take_kth (c mod count_nonempty qs) qs with
      | Some (x, qs') => x :: merge arrival' qs'
      | None => []
      end
  end.

(** Modelled from the spec: steps 1 and 3 of spec section 4.3. *)
Definition request (signer : KeyringPair) (b : Block) (nonce : nat) : Transaction :=
  {| tx_call := put_data_object;
     tx_payload := payload b;
     tx_nonce := nonce;
     tx_signer := signer |}.

(** Modelled from the spec: the chain after it answered [status] to the
    submission of [tx] (the nonce of the glossary): a transaction that
    landed enters the ledger and takes its nonce, whatever the sender was
    told; a nonce that was too low shows the account nonce has moved on. *)
Definition chain_after (tx : Transaction) (status : Status) (c : TargetChain)
  : TargetChain :=
  {| account_nonce :=
       match status with
       | NonceTooLow ahead => tx_nonce tx + S ahead
       | _ => if landed status then S (tx_nonce tx) else account_nonce c
       end;
     ledger := if landed status then ledger c ++ [tx] else ledger c;
     submissions := S (submissions c) |}.

(** Modelled from the spec: steps 2 to 5 of spec section 4.3 for one block:
    fetch the account nonce, sign, submit, await the status; a transient
    failure is retried with a nonce fetched anew, a terminal one ends the
    block.  Returns the chain, the transactions sent, and the outcome. *)
Fixpoint submit (net : Network) (signer : KeyringPair) (b : Block)
                (retries : nat) (c : TargetChain)
  : TargetChain * list Transaction * (Transaction + Status) :=
  let tx := request signer b (account_nonce c) in
  let status := net_status net (submissions c) in
  let c' := chain_after tx status c in
  match status with
  | Included => (c', [tx], inl tx)
  | _ =>
      match retries with
      | S r =>
          if transient status
          then let '(c'', txs, res) := submit net signer b r c' in (c'', tx :: txs, res)
          else (c', [tx], inr status)
      | 0 => (c', [tx], inr status)
      end
  end.

(** Modelled from the spec: the single worker of spec section 5: it
    dequeues one block at a time and finishes it before the next. *)
Fixpoint worker (net : Network) (signer : KeyringPair)
                (queue : list (nat * Block)) (c : TargetChain)
  : TargetChain * list Transaction * list SubmissionResult :=
  match queue with
  | [] => (c, [], [])
  | (i, b) :: queue' =>
      let '(c', txs, res) := submit net signer b (net_retries net) c in
      let '(c'', txs', results) := worker net signer queue' c' in
      (c'', txs ++ txs',
       match res with
       | inl tx => Submitted i b tx
       | inr status => NotSubmitted i b status
       end :: results)
  end.

(** Modelled from the spec: the blocks in the order the worker of Target
    dequeues them. *)
Definition dequeued (net : Network) (p : Pipeline) : list (nat * Block) :=
  merge (net_arrival net) (queues_from net 0 (pipe_inputs p)).

(** Modelled from the spec: driving the sequence Target.processBlocks
    returned (spec section 4.3). *)
Definition drive (net : Network) (p : Pipeline) (c : TargetChain)
  : TargetChain * list Transaction * list SubmissionResult :=
  worker net (target_signer (pipe_target p)) (dequeued net p) c.

(** Modelled from the spec: what a call of the driver does on the target
    chain: [processBlocks] only builds the sequence, subscribing to it runs
    it (spec section 4.3); the other calls do not touch the target account. *)
Definition effect (net : Network) (e : Event) (c : TargetChain)
  : TargetChain * list Transaction * list SubmissionResult :=
  match e with
  | EvSubscribe p => drive net p c
  | _ => (c, [], [])
  end.

(** Modelled from the spec: what the calls of a run do on the target chain,
    one after the other. *)
Fixpoint effects (net : Network) (tr : list Event) (c : TargetChain)
  : TargetChain * list Transaction * list SubmissionResult :=
  match tr with
  | [] => (c, [], [])
  | e :: tr' =>
      let '(c', txs, results) := effect net e c in
      let '(c'', txs', results') := effects net tr' c' in
      (c'', txs ++ txs', results ++ results')
  end.

(** The transactions of the successfully processed blocks, in order. *)
Definition accepted (results : list SubmissionResult) : list Transaction :=
  flat_map (fun r => match r with Submitted _ _ tx => [tx] | _ => [] end) results.

(** The block a result is about, with the index of its input sequence. *)
Definition result_block (r : SubmissionResult) : nat * Block :=
  match r with
  | Submitted i b _ | NotSubmitted i b _ => (i, b)
  end.

(** The blocks of [m] that came from input sequence [i]. *)
Definition from_source (i : nat) (m : list (nat * Block)) : list Block :=
  map snd (filter (fun x => Nat.eqb (fst x) i) m).

(** The target chain after, and the results of, driving a pipeline. *)
Definition final_chain {A B} (r : TargetChain * A * B) : TargetChain := fst (fst r).
Definition results_of {A} (r : TargetChain * A * list SubmissionResult)
  : list SubmissionResult := snd r.

(** The transactions sent while driving a pipeline, in the order sent. *)
Definition sent_of {A} (r : TargetChain * list Transaction * A) : list Transaction :=
  snd (fst r).

(** Modelled from the spec: the submissions [sent] with the chain's answers,
    the first of them being the [k]-th submission the chain received. *)
Fixpoint answered (net : Network) (k : nat) (sent : list Transaction)
  : list (Transaction * Status) :=
  match sent with
  | [] => []
  | tx :: sent' => (tx, net_status net k) :: answered net (S k) sent'
  end.

(** Those of the submissions [sent] that entered the chain, in order. *)
Definition included_of (net : Network) (k : nat) (sent : list Transaction)
  : list Transaction :=
  map fst (filter (fun a => landed (snd a)) (answered net k sent)).

(** The attempts [g] made for block [b], the first being the [k]-th
    submission: every attempt is the request for [b] with some nonce, every
    attempt but the last failed transiently, there are at most
    [S net_retries] of them, and the last decides the outcome. *)
Definition attempts_for (net : Network) (signer : KeyringPair) (b : Block)
    (k : nat) (g : list Transaction) (res : Transaction + Status) : Prop :=
  exists front last,
    g = front ++ [last] /\
    length g <= S (net_retries net) /\
    Forall (fun tx => tx = request signer b (tx_nonce tx)) g /\
    Forall (fun a => transient (snd a) = true) (answered net k front) /\
    match res with
    | inl tx => last = tx /\ net_status net (k + length front) = Included
    | inr st => net_status net (k + length front) = st /\ st <> Included
    end.

(** The outcome a result reports. *)
Definition result_outcome (r : SubmissionResult) : Transaction + Status :=
  match r with
  | Submitted _ _ tx => inl tx
  | NotSubmitted _ _ st => inr st
  end.

(** [groups] are the attempts made for the blocks of [results], block by
    block, the first attempt being the [k]-th submission. *)
Fixpoint grouped (net : Network) (signer : KeyringPair) (k : nat)
    (results : list SubmissionResult) (groups : list (list Transaction)) : Prop :=
  match results, groups with
  | [], [] => True
  | r :: results', g :: groups' =>
      attempts_for net signer (snd (result_block r)) k g (result_outcome r) /\
      grouped net signer (k + length g) results' groups'
  | _, _ => False
  end.

(** Equality of payloads. *)
Fixpoint same_bytes (x y : list Byte.byte) : bool :=
  match x, y with
  | [], [] => true
  | a :: x', b :: y' => Byte.eqb a b && same_bytes x' y'
  | _, _ => false
  end.

(** C1 as the spec words it, of the transactions sent: for every block
    successfully processed exactly one transaction with its payload is
    submitted, and every submission's nonce is above that of the submission
    before. *)
Definition submitted_once_each (net : Network) (p : Pipeline) (c : TargetChain)
  : Prop :=
  (forall i b tx,
     In (Submitted i b tx) (results_of (drive net p c)) ->
     length (filter (fun t => same_bytes (tx_payload t) (payload b))
                    (sent_of (drive net p c))) = 1) /\
  StronglySorted lt (map tx_nonce (sent_of (drive net p c))).

(** Queue [j] holds items tagged [j] only. *)
Definition tags_ok (qs : list (list (nat * Block))) : Prop :=
  forall j q, nth_error qs j = Some q -> Forall (fun x => fst x = j) q.

(** ** Views of a trace *)

(** The providers [new WsProvider(url)] constructed, in order. *)
Definition constructed_providers (tr : list Event) : list WsProvider :=
  flat_map (fun e => match e with EvNewWsProvider p => [p] | _ => [] end) tr.

(** The providers [ApiPromise.create] was called on, in order. *)
Definition connected_providers (tr : list Event) : list WsProvider :=
  flat_map (fun e => match e with EvApiCreate p _ => [p] | _ => [] end) tr.

(** The call [new Source(...)]. *)
Definition is_newSource (e : Event) : bool :=
  match e with EvNewSource _ _ => true | _ => false end.

(** The call [getAccount(seed)]. *)
Definition is_getAccount (e : Event) : bool :=
  match e with EvGetAccount _ => true | _ => false end.

(** The call [new Target(...)]. *)
Definition is_newTarget (e : Event) : bool :=
  match e with EvNewTarget _ _ => true | _ => false end.

(** The call [loadConfig()]. *)
Definition is_loadConfig (e : Event) : bool :=
  match e with EvLoadConfig => true | _ => false end.


(** ** Sample environments *)

(** One target and two sources. *)
Definition sample_config : Config :=
  {| targetChainUrl := "ws://target";
     sourceChainUrls := ["ws://a"; "ws://b"];
     accountSeed := "//Alice" |}.

(** Every node but the listed ones answers; a chain is named after its url. *)
Definition sample_world (down : list string) (order : list nat) : World :=
  {| env_config := sample_config;
     env_reachable := fun p => negb (existsb (String.eqb (endpoint p)) down);
     env_chain := fun api => Some (endpoint (api_provider api));
     env_keyring := fun seed => Some {| address := seed |};
     env_io_order := order |}.


(** The seed yields no key pair. *)
Definition no_seed_world : World :=
  {| env_config := sample_config;
     env_reachable := fun _ => true;
     env_chain := fun api => Some (endpoint (api_provider api));
     env_keyring := fun _ => None;
     env_io_order := [] |}.

(** No source chain is configured. *)
Definition no_sources_world : World :=
  {| env_config := {| targetChainUrl := "ws://target";
                      sourceChainUrls := [];
                      accountSeed := "//Alice" |};
     env_reachable := fun _ => true;
     env_chain := fun api => Some (endpoint (api_provider api));
     env_keyring := fun seed => Some {| address := seed |};
     env_io_order := [] |}.

(** "ws://a" delivers blocks 1 and 2, any other chain block 7; the first
    submission finds the account nonce moved on, the third is rejected. *)
Definition sample_network : Network :=
  {| net_heads := fun api =>
       if String.eqb (endpoint (api_provider api)) "ws://a"
       then [(1, [x01]); (2, [x02])]
       else [(7, [x07])];
     net_arrival := [0; 1; 0];
     net_status := fun k => match k with
                            | 0 => NonceTooLow 3
                            | 2 => PayloadRejected
                            | _ => Included
                            end;
     net_retries := 2 |}.

(** The same network, except that the first submission lands although the
    connection drops before the sender hears of it. *)
Definition late_network : Network :=
  {| net_heads := net_heads sample_network;
     net_arrival := net_arrival sample_network;
     net_status := fun k => match k with
                            | 0 => ConnectionDropped true
                            | 2 => PayloadRejected
                            | _ => Included
                            end;
     net_retries := net_retries sample_network |}.

(** An account at nonce 10. *)
Definition fresh_account : TargetChain :=
  {| account_nonce := 10; ledger := []; submissions := 0 |}.

(** The Target, the Sources and the pipeline of a successful sample run. *)
Definition sample_target : Target :=
  {| target_api := {| api_provider := {| provider_id := 0; endpoint := "ws://target" |};
                      api_types := Some types |};
     target_signer := {| address := "//Alice" |} |}.

Definition sample_sources : list Source :=
  [source_of {| provider_id := 1; endpoint := "ws://a" |} "ws://a";
   source_of {| provider_id := 2; endpoint := "ws://b" |} "ws://b"].

Definition sample_pipeline : Pipeline :=
  (processBlocks sample_target (map subscribeBlocks sample_sources)).

(** ** Sample runs *)

Example run_in_order :
  trace (sample_world [] [0; 0; 0; 0]) =
    [EvLoadConfig;
     EvNewWsProvider {| provider_id := 0; endpoint := "ws://target" |};
     EvApiCreate {| provider_id := 0; endpoint := "ws://target" |} (Some types);
     EvGetAccount "//Alice";
     EvNewTarget sample_target.(target_api) sample_target.(target_signer);
     EvNewWsProvider {| provider_id := 1; endpoint := "ws://a" |};
     EvApiCreate {| provider_id := 1; endpoint := "ws://a" |} None;
     EvNewWsProvider {| provider_id := 2; endpoint := "ws://b" |};
     EvApiCreate {| provider_id := 2; endpoint := "ws://b" |} None;
     EvSystemChain (source_api_of {| provider_id := 1; endpoint := "ws://a" |});
     EvNewSource (source_api_of {| provider_id := 1; endpoint := "ws://a" |}) "ws://a";
     EvSystemChain (source_api_of {| provider_id := 2; endpoint := "ws://b" |});
     EvNewSource (source_api_of {| provider_id := 2; endpoint := "ws://b" |}) "ws://b"] ++
    map EvSubscribeBlocks sample_sources ++
    [EvProcessBlocks sample_target (map subscribeBlocks sample_sources);
     EvSubscribe sample_pipeline].
Proof. reflexivity. Qed.

(** "ws://b" answers before "ws://a": the wiring is the same. *)
Example run_b_first :
  skipn 9 (trace (sample_world [] [1; 1; 0; 0])) =
    [EvSystemChain (source_api_of {| provider_id := 2; endpoint := "ws://b" |});
     EvNewSource (source_api_of {| provider_id := 2; endpoint := "ws://b" |}) "ws://b";
     EvSystemChain (source_api_of {| provider_id := 1; endpoint := "ws://a" |});
     EvNewSource (source_api_of {| provider_id := 1; endpoint := "ws://a" |}) "ws://a"] ++
    map EvSubscribeBlocks sample_sources ++
    [EvProcessBlocks sample_target (map subscribeBlocks sample_sources);
     EvSubscribe sample_pipeline].
Proof. reflexivity. Qed.

Example run_source_down_first :
  run (sample_world ["ws://b"] [1; 0; 0]) =
    ([EvLoadConfig;
      EvNewWsProvider {| provider_id := 0; endpoint := "ws://target" |};
      EvApiCreate {| provider_id := 0; endpoint := "ws://target" |} (Some types);
      EvGetAccount "//Alice";
      EvNewTarget sample_target.(target_api) sample_target.(target_signer);
      EvNewWsProvider {| provider_id := 1; endpoint := "ws://a" |};
      EvApiCreate {| provider_id := 1; endpoint := "ws://a" |} None;
      EvNewWsProvider {| provider_id := 2; endpoint := "ws://b" |};
      EvApiCreate {| provider_id := 2; endpoint := "ws://b" |} None],
     Thrown (ConnectionError "ws://b")).
Proof. reflexivity. Qed.

Example run_promises_pending :
  outcome (sample_world [] [0; 0; 0]) = Stalled.
Proof. reflexivity. Qed.

Example run_no_seed :
  run no_seed_world =
    ([EvLoadConfig;
      EvNewWsProvider {| provider_id := 0; endpoint := "ws://target" |};
      EvApiCreate {| provider_id := 0; endpoint := "ws://target" |} (Some types);
      EvGetAccount "//Alice"],
     Thrown (InvalidSeedError "//Alice")).
Proof. reflexivity. Qed.

(** Block 1 of "ws://a" is retried after a stale nonce, block 7 of "ws://b"
    is rejected for good, block 2 of "ws://a" is included at once. *)
Example relay_sample :
  dequeued sample_network sample_pipeline =
    [(0, {| sourceId := "ws://a"; height := 1; payload := [x01] |});
     (1, {| sourceId := "ws://b"; height := 7; payload := [x07] |});
     (0, {| sourceId := "ws://a"; height := 2; payload := [x02] |})] /\
  map tx_nonce (ledger (final_chain (drive sample_network sample_pipeline fresh_account)))
    = [14; 15] /\
  map tx_payload (ledger (final_chain (drive sample_network sample_pipeline fresh_account)))
    = [[x01]; [x02]] /\
  map tx_nonce (sent_of (drive sample_network sample_pipeline fresh_account))
    = [10; 14; 15; 15].
Proof. repeat split. Qed.

(** A submission that landed unnoticed is sent again: the payload of block 1
    of "ws://a" enters the ledger twice. *)
Example relay_late_landing :
  map (fun t => (tx_payload t, tx_nonce t))
      (ledger (final_chain (drive late_network sample_pipeline fresh_account))) =
    [([x01], 10); ([x01], 11); ([x02], 12)] /\
  map (fun t => (tx_payload t, tx_nonce t))
      (accepted (results_of (drive late_network sample_pipeline fresh_account))) =
    [([x01], 11); ([x02], 12)].
Proof. split; reflexivity. Qed.

(** ** Facts about the event loop *)

Lemma is_suspended_task_of w st :
  is_suspended (task_of w st) = active (snd st).
Proof. destruct st as [p [| | c | e]]; reflexivity. Qed.

Lemma resume_task_of w p ph n :
  active ph = true ->
  resume w (task_of w (p, ph)) n = (fst (next w p ph), n, task_of w (p, snd (next w p ph))).
Proof.
  destruct ph; try discriminate; intros _; cbn.
  - destruct (env_reachable w p); reflexivity.
  - destruct (env_chain w (source_api_of p)); reflexivity.
Qed.

Lemma resume_kth_pick {A} w (ts : list (Task A)) k n :
  k < count_suspended ts ->
  exists ts1 t ts2,
    ts = ts1 ++ t :: ts2 /\ is_suspended t = true /\
    resume_kth w k ts n =
      (let '(evs, n', t') := resume w t n in (evs, n', ts1 ++ t' :: ts2)).
Proof.
  revert k. induction ts as [|t ts IH]; cbn; intros k Hk; [lia|].
  destruct (is_suspended t) eqn:Ht.
  - destruct k as [|k].
    + exists [], t, ts. repeat split; auto.
    + destruct (IH k) as (ts1 & t0 & ts2 & -> & Hs & ->); [cbn in Hk; lia|].
      exists (t :: ts1), t0, ts2. repeat split; auto.
      destruct (resume w t0 n) as [[evs n'] t']. reflexivity.
  - destruct (IH k) as (ts1 & t0 & ts2 & -> & Hs & ->); [cbn in Hk; lia|].
    exists (t :: ts1), t0, ts2. repeat split; auto.
    destruct (resume w t0 n) as [[evs n'] t']. reflexivity.
Qed.

Lemma resume_kth_phases w sts k n :
  k < count_suspended (map (task_of w) sts) ->
  exists sts1 p ph sts2,
    sts = sts1 ++ (p, ph) :: sts2 /\ active ph = true /\
    resume_kth w k (map (task_of w) sts) n =
      (fst (next w p ph), n, map (task_of w) (sts1 ++ (p, snd (next w p ph)) :: sts2)).
Proof.
  intros Hk.
  destruct (resume_kth_pick w _ k n Hk) as (ts1 & t & ts2 & Hts & Hs & ->).
  apply map_eq_app in Hts as (sts1 & rest & -> & <- & Hrest).
  apply map_eq_cons in Hrest as ([p ph] & sts2 & -> & <- & <-).
  rewrite is_suspended_task_of in Hs. cbn in Hs.
  exists sts1, p, ph, sts2. split; [reflexivity|]. split; [assumption|].
  rewrite resume_task_of by assumption.
  rewrite map_app. reflexivity.
Qed.

Lemma event_loop_eq {A} w order (ts : list (Task A)) n :
  event_loop w order ts n =
    match first_rejected ts with
    | Some e => ([], n, Thrown e)
    | None =>
        match count_suspended ts with
        | 0 => ([], n, Normal (fulfilled_values ts))
        | S m =>
            match order with
            | [] => ([], n, Stalled)
            | c :: order' =>
                let '(evs, n', ts') := resume_kth w (c mod S m) ts n in
                let '(evs', n'', r) := event_loop w order' ts' n' in
                (evs ++ evs', n'', r)
            end
        end
    end.
Proof. destruct order; reflexivity. Qed.

(** The event loop on source tasks follows the step relation and constructs
    no object. *)
Lemma event_loop_Loop w order : forall sts n,
  exists evs r,
    event_loop w order (map (task_of w) sts) n = (evs, n, r) /\
    Loop w order sts evs r.
Proof.
  induction order as [|c order IH]; intros sts n; rewrite event_loop_eq.
  - destruct (first_rejected (map (task_of w) sts)) as [e|] eqn:Hf.
    + eexists _, _. split; [reflexivity|]. now constructor.
    + destruct (count_suspended (map (task_of w) sts)) as [|m] eqn:Hc.
      * eexists _, _. split; [reflexivity|]. now constructor.
      * eexists _, _. split; [reflexivity|]. constructor; [assumption|lia].
  - destruct (first_rejected (map (task_of w) sts)) as [e|] eqn:Hf.
    + eexists _, _. split; [reflexivity|]. now constructor.
    + destruct (count_suspended (map (task_of w) sts)) as [|m] eqn:Hc.
      * eexists _, _. split; [reflexivity|]. now constructor.
      * assert (Hk : c mod S m < count_suspended (map (task_of w) sts)).
        { rewrite Hc. apply Nat.mod_upper_bound. lia. }
        destruct (resume_kth_phases w sts _ n Hk)
          as (sts1 & p & ph & sts2 & -> & Hact & ->).
        destruct (IH (sts1 ++ (p, snd (next w p ph)) :: sts2) n)
          as (evs & r & -> & HL).
        eexists _, _. split; [reflexivity|].
        now constructor.
Qed.

Lemma first_failed_app w sts1 st sts2 :
  first_failed w (sts1 ++ st :: sts2) = None ->
  first_failed w sts1 = None /\ first_failed w sts2 = None /\
  (forall e, snd st <> Failed e).
Proof.
  unfold first_failed. induction sts1 as [|[p ph] sts1 IH]; cbn.
  - destruct st as [p [| | c | e]]; cbn; intros H; try discriminate;
      repeat split; auto; discriminate.
  - destruct ph; cbn; auto; discriminate.
Qed.

Lemma first_failed_mid w sts1 p e sts2 :
  first_failed w (sts1 ++ (p, Failed e) :: sts2) <> None.
Proof.
  intros H. apply first_failed_app in H as (_ & _ & H). now apply (H e).
Qed.

Lemma Loop_failed w order sts evs r :
  Loop w order sts evs r -> first_failed w sts <> None -> exists e, r = Thrown e.
Proof. intros HL Hf. destruct HL; try congruence. now exists e. Qed.

Lemma phase_ok_next w p ph :
  phase_ok w (p, ph) -> phase_ok w (p, snd (next w p ph)).
Proof.
  destruct ph; cbn; auto.
  - destruct (env_reachable w p) eqn:E; cbn; auto.
  - destruct (env_chain w (source_api_of p)) eqn:E; cbn; auto.
Qed.

Lemma Forall_mid {A} (P : A -> Prop) l1 x y l2 :
  Forall P (l1 ++ x :: l2) -> P y -> Forall P (l1 ++ y :: l2).
Proof.
  rewrite !Forall_app. intros [H1 H2] Hy. inversion H2; subst. auto.
Qed.

Lemma settled_values w sts :
  first_failed w sts = None ->
  count_suspended (map (task_of w) sts) = 0 ->
  Forall (phase_ok w) sts ->
  Forall2 (built_over w) (map fst sts) (fulfilled_values (map (task_of w) sts)) /\
  Forall (fun l => l = []) (map (pending_events w) sts).
Proof.
  unfold first_failed.
  induction sts as [|[p ph] sts IH]; cbn; intros Hf Hc Hok.
  - split; constructor.
  - inversion Hok as [|? ? Hp Hok']; subst.
    destruct ph; cbn in *; try discriminate.
    destruct (IH Hf Hc Hok') as [IH1 IH2].
    split; constructor; auto.
    destruct Hp as [Hr Hch]. split; [assumption|]. now exists chain.
Qed.

(** When the joint await resolves, its value lists the Sources built over
    the tasks' providers, in task order. *)
Lemma Loop_values w order sts evs srcs :
  Loop w order sts evs (Normal srcs) ->
  Forall (phase_ok w) sts ->
  Forall2 (built_over w) (map fst sts) srcs.
Proof.
  intros HL. remember (Normal srcs) as r eqn:Hr. revert srcs Hr.
  induction HL as [| order sts Hf Hc | | c order sts1 p ph sts2 evs r Hf Hact HL IH];
    intros srcs Hr Hok; try discriminate.
  - injection Hr as <-. now apply settled_values.
  - rewrite map_app in *. cbn in *. apply IH; [assumption|].
    eapply Forall_mid; [eassumption|].
    apply phase_ok_next. rewrite Forall_app in Hok.
    destruct Hok as [_ Hok]. now inversion Hok.
Qed.

(** ... and the calls made meanwhile interleave the tasks' pending calls. *)
Lemma Loop_interleaving w order sts evs srcs :
  Loop w order sts evs (Normal srcs) ->
  Forall (phase_ok w) sts ->
  Interleaving (map (pending_events w) sts) evs.
Proof.
  intros HL. remember (Normal srcs) as r eqn:Hr. revert srcs Hr.
  induction HL as [| order sts Hf Hc | | c order sts1 p ph sts2 evs r Hf Hact HL IH];
    intros srcs Hr Hok; try discriminate.
  - constructor. now apply settled_values.
  - assert (Hp : phase_ok w (p, ph)).
    { rewrite Forall_app in Hok. destruct Hok as [_ Hok]. now inversion Hok. }
    assert (Hok' : Forall (phase_ok w) (sts1 ++ (p, snd (next w p ph)) :: sts2)).
    { eapply Forall_mid; [eassumption|]. now apply phase_ok_next. }
    specialize (IH srcs Hr Hok').
    assert (Hnf : forall e, snd (next w p ph) <> Failed e).
    { intros e He. destruct (next w p ph) as [es ph'] eqn:En. cbn in He. subst ph'.
      destruct (Loop_failed _ _ _ _ _ HL) as [e' He'].
      - cbn. apply first_failed_mid.
      - congruence. }
    rewrite map_app in *. cbn [map] in *.
    destruct ph; try discriminate; cbn in *.
    + destruct (env_reachable w p); cbn in *; [|now destruct (Hnf _ eq_refl)].
      now constructor.
    + destruct (env_chain w (source_api_of p)); cbn in *;
        [|now destruct (Hnf _ eq_refl)].
      now constructor.
Qed.

Lemma count_suspended_awaits w sts :
  count_suspended (map (task_of w) sts) <= total_awaits sts.
Proof.
  unfold total_awaits. induction sts as [|[p ph] sts IH]; simpl; [lia|].
  destruct ph; simpl; lia.
Qed.

Lemma total_awaits_mid sts1 p ph ph' sts2 :
  total_awaits (sts1 ++ (p, ph) :: sts2) + awaits_left ph' =
  total_awaits (sts1 ++ (p, ph') :: sts2) + awaits_left ph.
Proof.
  unfold total_awaits. rewrite !map_app, !list_sum_app. simpl. lia.
Qed.

Lemma awaits_left_next w p ph :
  active ph = true -> awaits_left (snd (next w p ph)) < awaits_left ph.
Proof.
  destruct ph; try discriminate; intros _; cbn.
  - destruct (env_reachable w p); cbn; lia.
  - destruct (env_chain w (source_api_of p)); cbn; lia.
Qed.

(** If the environment lets enough promises settle, the joint await settles. *)
Lemma Loop_settles w order sts evs r :
  Loop w order sts evs r ->
  total_awaits sts <= length order ->
  r <> Stalled.
Proof.
  induction 1 as [| | sts Hf Hc | c order sts1 p ph sts2 evs r Hf Hact HL IH];
    intros Hlen; try discriminate.
  - pose proof (count_suspended_awaits w sts). cbn in Hlen. lia.
  - apply IH.
    pose proof (total_awaits_mid sts1 p ph (snd (next w p ph)) sts2).
    pose proof (awaits_left_next w p ph Hact). cbn in Hlen. lia.
Qed.

Lemma next_events w p ph : Forall (fun e => loop_event e = true) (fst (next w p ph)).
Proof.
  destruct ph; cbn; auto.
  - destruct (env_reachable w p); cbn; auto.
  - destruct (env_chain w (source_api_of p)); cbn; auto.
Qed.

(** While sources are awaited the only calls made are identity queries and
    Source constructions. *)
Lemma Loop_events w order sts evs r :
  Loop w order sts evs r -> Forall (fun e => loop_event e = true) evs.
Proof.
  induction 1; auto. apply Forall_app. split; [apply next_events|assumption].
Qed.

(** ** Facts about a run *)

Lemma length_providers_from n urls : length (providers_from n urls) = length urls.
Proof. revert n. induction urls; cbn; auto. Qed.

Lemma start_all_sources w urls : forall n,
  start_all w (map connect_source urls) n =
    (open_events (providers_from n urls), n + length urls,
     map (task_of w) (connecting (providers_from n urls))).
Proof.
  induction urls as [|url urls IH]; intros n.
  - cbn. now rewrite Nat.add_0_r.
  - change (start_all w (map connect_source (url :: urls)) n)
      with (let '(evs', n'', ts) := start_all w (map connect_source urls) (S n) in
            ([EvNewWsProvider {| provider_id := n; endpoint := url |};
              EvApiCreate {| provider_id := n; endpoint := url |} None] ++ evs', n'',
             task_of w ({| provider_id := n; endpoint := url |}, Connecting) :: ts)).
    rewrite IH. cbn. now rewrite Nat.add_succ_r.
Qed.

Lemma Promise_all_sources w urls n :
  exists evs r,
    Promise_all w (map connect_source urls) n =
      (open_events (providers_from n urls) ++ evs, n + length urls, r) /\
    Loop w (env_io_order w) (connecting (providers_from n urls)) evs r.
Proof.
  unfold Promise_all. rewrite start_all_sources.
  destruct (event_loop_Loop w (env_io_order w)
              (connecting (providers_from n urls)) (n + length urls))
    as (evs & r & -> & HL).
  now exists evs, r.
Qed.

Lemma map_sync_subscribe w sources n :
  map_sync w (fun source => call (SubscribeBlocks source)) sources n =
    (map EvSubscribeBlocks sources, n, Normal (map subscribeBlocks sources)).
Proof.
  induction sources as [|s sources IH]; [reflexivity|].
  cbn. unfold pbind. rewrite IH. cbn. now rewrite app_nil_r.
Qed.

Lemma run_unreachable w :
  env_reachable w (target_provider w) = false ->
  run w = (connect_target_events w,
           Thrown (ConnectionError (targetChainUrl (env_config w)))).
Proof.
  intros H. unfold run, index, iife, pbind. cbn.
  fold (target_provider w). rewrite H. reflexivity.
Qed.

Lemma run_bad_seed w :
  env_reachable w (target_provider w) = true ->
  env_keyring w (accountSeed (env_config w)) = None ->
  run w = (connect_target_events w ++ [EvGetAccount (accountSeed (env_config w))],
           Thrown (InvalidSeedError (accountSeed (env_config w)))).
Proof.
  intros H1 H2. unfold run, index, iife, pbind. cbn.
  fold (target_provider w). rewrite H1. cbn. rewrite H2. reflexivity.
Qed.






Lemma run_connected w signer :
  env_reachable w (target_provider w) = true ->
  env_keyring w (accountSeed (env_config w)) = Some signer ->
  exists evs r,
    Loop w (env_io_order w) (connecting (source_providers w)) evs r /\
    run w =
      (startup_events w signer ++ open_events (source_providers w) ++ evs ++
         match r with
         | Normal sources => wiring_events (target_of w signer) sources
         | _ => []
         end,
       match r with
       | Normal _ => Normal tt
       | Thrown e => Thrown e
       | Stalled => Stalled
       end).
Proof.
  intros H1 H2.
  destruct (Promise_all_sources w (sourceChainUrls (env_config w)) 1)
    as (evs & r & HP & HL).
  exists evs, r. split; [exact HL|].
  unfold run, index, iife, pbind. cbn.
  fold (target_provider w). rewrite H1. cbn. rewrite H2. cbn.
  rewrite HP. fold (source_providers w).
  destruct r as [sources | e |].
  - rewrite map_sync_subscribe. cbn.
    unfold startup_events, connect_target_events, wiring_events, target_of, target_api_of.
    cbn. rewrite <- !app_assoc. reflexivity.
  - unfold startup_events, connect_target_events. cbn.
    rewrite !app_nil_r. reflexivity.
  - unfold startup_events, connect_target_events. cbn.
    rewrite !app_nil_r. reflexivity.
Qed.

(** The three ways a run can go. *)
Lemma run_cases w :
  (env_reachable w (target_provider w) = false /\
   run w = (connect_target_events w,
            Thrown (ConnectionError (targetChainUrl (env_config w))))) \/
  (env_reachable w (target_provider w) = true /\
   env_keyring w (accountSeed (env_config w)) = None /\
   run w = (connect_target_events w ++ [EvGetAccount (accountSeed (env_config w))],
            Thrown (InvalidSeedError (accountSeed (env_config w))))) \/
  (exists signer evs r,
     env_reachable w (target_provider w) = true /\
     env_keyring w (accountSeed (env_config w)) = Some signer /\
     Loop w (env_io_order w) (connecting (source_providers w)) evs r /\
     run w =
       (startup_events w signer ++ open_events (source_providers w) ++ evs ++
          match r with
          | Normal sources => wiring_events (target_of w signer) sources
          | _ => []
          end,
        match r with
        | Normal _ => Normal tt
        | Thrown e => Thrown e
        | Stalled => Stalled
        end)).
Proof.
  destruct (env_reachable w (target_provider w)) eqn:Ht.
  - destruct (env_keyring w (accountSeed (env_config w))) as [signer|] eqn:Ek.
    + right; right. destruct (run_connected w signer Ht Ek) as (evs & r & HL & Hrun).
      now exists signer, evs, r.
    + right; left. auto using run_bad_seed.
  - left. auto using run_unreachable.
Qed.

Ltac run_cases w :=
  let Ht := fresh "Ht" in
  let Ek := fresh "Ek" in
  let HL := fresh "HL" in
  let Hrun := fresh "Hrun" in
  let signer := fresh "signer" in
  let evs := fresh "evs" in
  let r := fresh "r" in
  destruct (run_cases w)
    as [(Ht & Hrun) | [(Ht & Ek & Hrun) | (signer & evs & r & Ht & Ek & HL & Hrun)]].

Lemma nth_error_providers_from urls : forall n i,
  nth_error (providers_from n urls) i =
    option_map (fun url => {| provider_id := n + i; endpoint := url |})
               (nth_error urls i).
Proof.
  induction urls as [|url urls IH]; intros n [|i]; cbn; auto.
  - now rewrite Nat.add_0_r.
  - rewrite IH. now rewrite Nat.add_succ_r.
Qed.

Lemma providers_from_ids urls : forall n p,
  In p (providers_from n urls) -> n <= provider_id p.
Proof.
  induction urls as [|url urls IH]; cbn; intros n p; [tauto|].
  intros [<- | H]; cbn; [lia|]. apply IH in H. lia.
Qed.

Lemma NoDup_providers_from urls : forall n,
  NoDup (map provider_id (providers_from n urls)).
Proof.
  induction urls as [|url urls IH]; intros n; cbn; constructor; auto.
  intros H. apply in_map_iff in H as (p & Hid & Hp).
  apply providers_from_ids in Hp. lia.
Qed.

Lemma map_fst_connecting ps : map fst (connecting ps) = ps.
Proof. unfold connecting. rewrite map_map. cbn. apply map_id. Qed.

Lemma connecting_ok w ps : Forall (phase_ok w) (connecting ps).
Proof. unfold connecting. apply Forall_map, Forall_forall. cbn. auto. Qed.

Lemma total_awaits_connecting ps : total_awaits (connecting ps) = 2 * length ps.
Proof.
  unfold total_awaits, connecting. rewrite map_map.
  induction ps; simpl in *; lia.
Qed.

Lemma open_events_source_connection w :
  Forall (fun e => source_connection e = true) (open_events (source_providers w)).
Proof.
  unfold open_events. apply Forall_forall. intros e He.
  apply in_flat_map in He as (p & Hp & He).
  apply providers_from_ids in Hp.
  assert (Nat.eqb (provider_id p) 0 = false) by (apply Nat.eqb_neq; lia).
  destruct He as [<- | [<- | []]]; cbn; now rewrite H.
Qed.

Lemma open_events_not_wiring ps :
  Forall (fun e => wiring_event e = false) (open_events ps).
Proof.
  unfold open_events. apply Forall_forall. intros e He.
  apply in_flat_map in He as (p & _ & [<- | [<- | []]]); reflexivity.
Qed.

Lemma loop_event_not_wiring evs :
  Forall (fun e => loop_event e = true) evs ->
  Forall (fun e => wiring_event e = false) evs.
Proof. apply Forall_impl. now intros []. Qed.

(** A list that starts with [l1] and is cut at an element [l1] cannot hold
    is cut after [l1]. *)
Lemma cut_after_prefix {A} (P : A -> bool) (l1 : list A) : forall l2 pre e post,
  l1 ++ l2 = pre ++ e :: post ->
  Forall (fun x => P x = false) l1 ->
  P e = true ->
  exists rest, pre = l1 ++ rest.
Proof.
  induction l1 as [|x l1 IH]; intros l2 pre e post Heq Hl1 He.
  - now exists pre.
  - inversion Hl1 as [|? ? Hx Hl1']; subst.
    destruct pre as [|y pre]; cbn in Heq.
    + injection Heq as -> _. congruence.
    + injection Heq as -> Heq.
      destruct (IH _ _ _ _ Heq Hl1' He) as [rest ->]. now exists rest.
Qed.

Lemma startup_events_not_source w signer :
  Forall (fun e => source_connection e = false) (startup_events w signer).
Proof. repeat constructor. Qed.

Lemma healthy_no_failure w sts :
  Forall (source_healthy w) (map fst sts) ->
  Forall (phase_ok w) sts ->
  first_failed w sts = None.
Proof.
  unfold first_failed.
  induction sts as [|[p ph] sts IH]; cbn; intros Hh Hok; [reflexivity|].
  inversion Hh as [|? ? [Hr Hc] Hh']; inversion Hok as [|? ? Hp Hok']; subst.
  destruct ph; cbn in *; auto.
  destruct Hp; congruence.
Qed.

(** With healthy sources the joint await does not reject. *)
Lemma Loop_healthy w order sts evs r :
  Loop w order sts evs r ->
  Forall (source_healthy w) (map fst sts) ->
  Forall (phase_ok w) sts ->
  forall e, r <> Thrown e.
Proof.
  induction 1 as [order sts e Hf | | | c order sts1 p ph sts2 evs r Hf Hact HL IH];
    intros Hh Hok e'; try discriminate.
  - rewrite (healthy_no_failure w sts Hh Hok) in Hf. discriminate.
  - apply IH.
    + rewrite map_app in *. exact Hh.
    + eapply Forall_mid; [eassumption|]. apply phase_ok_next.
      rewrite Forall_app in Hok. destruct Hok as [_ Hok]. now inversion Hok.
Qed.

Lemma Forall2_nth_error_left {A B} (R : A -> B -> Prop) l1 l2 :
  Forall2 R l1 l2 ->
  forall i a, nth_error l1 i = Some a ->
  exists b, nth_error l2 i = Some b /\ R a b.
Proof.
  induction 1 as [|x y l1 l2 Hxy H IH]; intros [|i] a Hi; cbn in *; try discriminate.
  - injection Hi as <-. now exists y.
  - now apply IH.
Qed.


Lemma pending_connecting w ps srcs :
  Forall2 (built_over w) ps srcs ->
  map (pending_events w) (connecting ps) = map source_calls srcs /\
  map source_api srcs = map source_api_of ps.
Proof.
  induction 1 as [|p s ps srcs (Hr & c & Hc & ->) H [IH1 IH2]]; [split; reflexivity|].
  cbn. rewrite Hc. unfold connecting in IH1. rewrite IH1, IH2. split; reflexivity.
Qed.

Lemma built_over_NoDup w ps srcs :
  Forall2 (built_over w) ps srcs ->
  NoDup (map provider_id ps) ->
  NoDup srcs.
Proof.
  intros H Hnd.
  apply (NoDup_map_inv (fun s => provider_id (api_provider (source_api s)))).
  replace (map (fun s => provider_id (api_provider (source_api s))) srcs)
    with (map provider_id ps); [assumption|].
  induction H as [|p s ps srcs (_ & c & _ & ->) H IH]; [reflexivity|].
  cbn. f_equal. apply IH. now inversion Hnd.
Qed.

Lemma subscribed_none evs :
  Forall (fun e => wiring_event e = false) evs -> subscribed evs = [].
Proof.
  unfold subscribed. induction 1 as [|e evs He H IH]; [reflexivity|].
  cbn. rewrite IH. now destruct e.
Qed.

Lemma subscribed_wiring target sources :
  subscribed (wiring_events target sources) = sources.
Proof.
  unfold subscribed, wiring_events. rewrite flat_map_app. cbn.
  rewrite app_nil_r. induction sources; cbn; congruence.
Qed.

(** Nothing is wired before the joint await has resolved. *)
Lemma before_wiring w signer order sts evs r :
  Loop w order sts evs r ->
  Forall (fun e => wiring_event e = false)
         (startup_events w signer ++ open_events (source_providers w) ++ evs ++ []).
Proof.
  intros HL. rewrite !Forall_app. repeat split; auto.
  - repeat constructor.
  - apply open_events_not_wiring.
  - apply loop_event_not_wiring. eapply Loop_events; eassumption.
Qed.

Lemma sources_settle w evs r :
  Loop w (env_io_order w) (connecting (source_providers w)) evs r ->
  2 * length (sourceChainUrls (env_config w)) <= length (env_io_order w) ->
  r <> Stalled.
Proof.
  intros HL Hlen. eapply Loop_settles; [eassumption|].
  rewrite total_awaits_connecting. unfold source_providers.
  now rewrite length_providers_from.
Qed.

(** A run in which every connection, the seed and every identity query
    succeed, and every promise settles. *)
Lemma run_success w :
  startup_succeeds w ->
  exists signer sources settling,
    env_keyring w (accountSeed (env_config w)) = Some signer /\
    Forall2 (built_over w) (source_providers w) sources /\
    Interleaving (map source_calls sources) settling /\
    Forall (fun e => loop_event e = true) settling /\
    run w = (startup_events w signer ++ open_events (source_providers w) ++
             settling ++ wiring_events (target_of w signer) sources,
             Normal tt).
Proof.
  intros (Ht & Hk & Hs & Hlen).
  destruct (env_keyring w (accountSeed (env_config w))) as [signer|] eqn:Ek;
    [clear Hk | congruence].
  destruct (run_connected w signer Ht Ek) as (evs & r & HL & Hrun).
  pose proof (connecting_ok w (source_providers w)) as Hok.
  destruct r as [sources | e |].
  - pose proof (Loop_values _ _ _ _ _ HL Hok) as Hv.
    rewrite map_fst_connecting in Hv.
    exists signer, sources, evs. repeat split; auto.
    + rewrite <- (proj1 (pending_connecting w _ _ Hv)).
      eapply Loop_interleaving; eassumption.
    + eapply Loop_events; eassumption.
  - exfalso. eapply Loop_healthy; eauto. now rewrite map_fst_connecting.
  - now destruct (sources_settle w evs Stalled HL Hlen).
Qed.



Lemma sample_startup_succeeds order :
  4 <= length order -> startup_succeeds (sample_world [] order).
Proof.
  intros H. repeat split; cbn; try discriminate; auto.
  repeat constructor; discriminate.
Defined.

(** A list ending in [a; b] is cut at an element like [a] only before [a],
    when neither [b] nor anything earlier is like [a]. *)
Lemma cut_at_last_but_one {A} (P : A -> bool) (l : list A) a b : forall pre x post,
  l ++ [a; b] = pre ++ x :: post ->
  Forall (fun y => P y = false) l ->
  P b = false ->
  P x = true ->
  pre = l /\ x = a /\ post = [b].
Proof.
  induction l as [|y l IH]; intros pre x post Heq Hl Hb Hx.
  - destruct pre as [|y1 [|y2 pre]]; cbn in Heq.
    + injection Heq as <- <-. auto.
    + injection Heq as _ <- _. congruence.
    + injection Heq as _ _ Heq. now destruct pre.
  - inversion Hl as [|? ? Hy Hl']; subst.
    destruct pre as [|y1 pre]; cbn in Heq.
    + injection Heq as <- _. congruence.
    + injection Heq as <- Heq.
      destruct (IH _ _ _ Heq Hl' Hb Hx) as (-> & -> & ->). auto.
Qed.

Lemma Loop_nil w order evs r :
  Loop w order [] evs r -> evs = [] /\ r = Normal [].
Proof.
  inversion 1; subst; auto; try discriminate.
  - cbn in *. congruence.
  - now destruct sts1.
Qed.

(** ** Facts about the pipeline *)

Lemma take_kth_split {A} (qs : list (list A)) : forall k x qs',
  take_kth k qs = Some (x, qs') ->
  exists qs1 q qs2, qs = qs1 ++ (x :: q) :: qs2 /\ qs' = qs1 ++ q :: qs2.
Proof.
  induction qs as [|q0 qs IH]; intros k x qs' H; cbn in H; [discriminate|].
  destruct q0 as [|y q0].
  - destruct (take_kth k qs) as [[z r]|] eqn:E; [|discriminate].
    injection H as -> <-.
    destruct (IH _ _ _ E) as (qs1 & q & qs2 & -> & ->).
    now exists ([] :: qs1), q, qs2.
  - destruct k as [|k].
    + injection H as -> <-. now exists [], q0, qs.
    + destruct (take_kth k qs) as [[z r]|] eqn:E; [|discriminate].
      injection H as -> <-.
      destruct (IH _ _ _ E) as (qs1 & q & qs2 & -> & ->).
      now exists ((y :: q0) :: qs1), q, qs2.
Qed.

Lemma take_kth_pick {A} (qs1 : list (list A)) x q qs2 :
  take_kth (count_nonempty qs1) (qs1 ++ (x :: q) :: qs2) = Some (x, qs1 ++ q :: qs2) /\
  count_nonempty qs1 < count_nonempty (qs1 ++ (x :: q) :: qs2).
Proof.
  induction qs1 as [|[|y q0] qs1 [IH1 IH2]]; cbn.
  - split; [reflexivity | lia].
  - rewrite IH1. split; [reflexivity | lia].
  - rewrite IH1. split; [reflexivity | lia].
Qed.

(** Every order that keeps each queue's own order is some arrival order. *)
Lemma merge_any_interleaving {A} (qs : list (list A)) m :
  Interleaving qs m -> exists arrival, merge arrival qs = m.
Proof.
  induction 1 as [qs Hnil | qs1 x q qs2 m HI [arrival IH]].
  - now exists [].
  - exists (count_nonempty qs1 :: arrival). cbn [merge].
    destruct (take_kth_pick qs1 x q qs2) as [Hk Hlt].
    rewrite Nat.mod_small by exact Hlt. rewrite Hk, IH. reflexivity.
Qed.

Lemma nth_off_middle {A} (l1 : list A) a b l2 d : forall i,
  i <> length l1 -> nth i (l1 ++ a :: l2) d = nth i (l1 ++ b :: l2) d.
Proof.
  induction l1 as [|y l1 IH]; intros [|i] Hi; cbn in *; auto; try lia.
Qed.

Lemma tags_ok_take qs1 x q qs2 :
  tags_ok (qs1 ++ (x :: q) :: qs2) ->
  fst x = length qs1 /\ tags_ok (qs1 ++ q :: qs2).
Proof.
  intros H. split.
  - specialize (H (length qs1) (x :: q)). rewrite nth_error_app2, Nat.sub_diag in H by lia.
    specialize (H eq_refl). now inversion H.
  - intros j q' Hj. destruct (Nat.eq_dec j (length qs1)) as [-> | Hne].
    + rewrite nth_error_app2, Nat.sub_diag in Hj by lia. injection Hj as <-.
      specialize (H (length qs1) (x :: q)).
      rewrite nth_error_app2, Nat.sub_diag in H by lia.
      specialize (H eq_refl). now inversion H.
    + apply (H j). rewrite <- Hj.
      destruct (Nat.lt_ge_cases j (length qs1)).
      * now rewrite !nth_error_app1 by lia.
      * rewrite !nth_error_app2 by lia.
        destruct (j - length qs1) as [|k] eqn:E; [lia | reflexivity].
Qed.

(** What was dequeued from a source is the beginning of what that source
    delivered, in its order. *)
Lemma merge_keeps_source_order arrival : forall qs i,
  tags_ok qs ->
  exists rest, map snd (nth i qs []) = from_source i (merge arrival qs) ++ rest.
Proof.
  induction arrival as [|c arrival IH]; intros qs i Hok; cbn [merge].
  - now exists (map snd (nth i qs [])).
  - destruct (take_kth (c mod count_nonempty qs) qs) as [[x qs']|] eqn:E.
    2:{ now exists (map snd (nth i qs [])). }
    apply take_kth_split in E as (qs1 & q & qs2 & -> & ->).
    destruct (tags_ok_take _ _ _ _ Hok) as [Hx Hok'].
    destruct (IH _ i Hok') as [rest Hrest].
    exists rest. unfold from_source in *. cbn [filter].
    destruct (Nat.eqb_spec (fst x) i) as [Heq | Hne].
    + subst i. rewrite Hx in *. rewrite nth_middle in *.
      cbn [map app]. now rewrite <- Hrest.
    + rewrite <- Hrest. f_equal. apply nth_off_middle. congruence.
Qed.

Lemma queues_from_tags net inputs : forall n j q,
  nth_error (queues_from net n inputs) j = Some q ->
  Forall (fun x => fst x = n + j) q.
Proof.
  induction inputs as [|s inputs IH]; intros n [|j] q H; cbn in H; try discriminate.
  - injection H as <-. rewrite Nat.add_0_r. apply Forall_map, Forall_forall. reflexivity.
  - rewrite Nat.add_succ_r. now apply (IH (S n)).
Qed.

Lemma queues_from_blocks net inputs : forall n,
  map (map snd) (queues_from net n inputs) = map (blocks_of net) inputs.
Proof.
  induction inputs as [|s inputs IH]; intros n; cbn; [reflexivity|].
  rewrite IH, map_map. cbn. now rewrite map_id.
Qed.

Lemma worker_results net signer queue : forall c,
  map result_block (results_of (worker net signer queue c)) = queue.
Proof.
  unfold results_of.
  induction queue as [|[i b] queue IH]; intros c; cbn; [reflexivity|].
  destruct (submit net signer b (net_retries net) c) as [[c' txs] res].
  specialize (IH c'). destruct (worker net signer queue c') as [[c'' txs'] results].
  cbn in *. rewrite IH. now destruct res.
Qed.

(** Answers follow the order of sending. *)
Lemma answered_app net sent1 : forall k sent2,
  answered net k (sent1 ++ sent2) =
    answered net k sent1 ++ answered net (k + length sent1) sent2.
Proof.
  induction sent1 as [|tx sent1 IH]; intros k sent2; cbn.
  - now rewrite Nat.add_0_r.
  - rewrite IH. now rewrite Nat.add_succ_r.
Qed.

Lemma included_of_app net k sent1 sent2 :
  included_of net k (sent1 ++ sent2) =
    included_of net k sent1 ++ included_of net (k + length sent1) sent2.
Proof.
  unfold included_of. now rewrite answered_app, filter_app, map_app.
Qed.

Lemma included_of_cons net k tx sent :
  included_of net k (tx :: sent) =
    (if landed (net_status net k) then [tx] else []) ++ included_of net (S k) sent.
Proof.
  unfold included_of. cbn. now destruct (landed (net_status net k)).
Qed.

Lemma transient_not_included s : transient s = true -> s <> Included.
Proof. now destruct s. Qed.

(** What the chain does with a submission. *)
Lemma chain_after_spec tx status c :
  submissions (chain_after tx status c) = S (submissions c) /\
  ledger (chain_after tx status c) =
    ledger c ++ (if landed status then [tx] else []) /\
  (tx_nonce tx = account_nonce c ->
   account_nonce c <= account_nonce (chain_after tx status c) /\
   (landed status = true -> account_nonce (chain_after tx status c) = S (account_nonce c))).
Proof.
  split; [reflexivity|]. split.
  - cbn. destruct (landed status); [reflexivity|now rewrite app_nil_r].
  - intros H. destruct status as [| a | [|] | [|] | |]; cbn; rewrite ?H; split;
      (lia || discriminate || reflexivity).
Qed.

Lemma sorted_ranges (l1 l2 : list Transaction) a b c :
  StronglySorted lt (map tx_nonce l1) ->
  StronglySorted lt (map tx_nonce l2) ->
  Forall (fun t => a <= tx_nonce t < b) l1 ->
  Forall (fun t => b <= tx_nonce t < c) l2 ->
  a <= b -> b <= c ->
  StronglySorted lt (map tx_nonce (l1 ++ l2)) /\
  Forall (fun t => a <= tx_nonce t < c) (l1 ++ l2).
Proof.
  intros H1 H2 R1 R2 Hab Hbc. split.
  - induction l1 as [|t l1 IH]; cbn [map app]; [assumption|].
    apply StronglySorted_inv in H1 as [H1 Hlt].
    apply Forall_cons_iff in R1 as [Ht R1].
    constructor; [now apply IH|].
    rewrite map_app. apply Forall_app. split; [assumption|].
    apply Forall_map. revert R2. apply Forall_impl. intros; lia.
  - apply Forall_app. split.
    + revert R1. apply Forall_impl. intros; lia.
    + revert R2. apply Forall_impl. intros; lia.
Qed.

(** One attempt, the chain's side. *)
Lemma attempt_chain net signer b c :
  let tx := request signer b (account_nonce c) in
  let st := net_status net (submissions c) in
  let c1 := chain_after tx st c in
  let inc := if landed st then [tx] else [] in
  submissions c1 = S (submissions c) /\
  account_nonce c <= account_nonce c1 /\
  ledger c1 = ledger c ++ inc /\
  StronglySorted lt (map tx_nonce inc) /\
  Forall (fun t => account_nonce c <= tx_nonce t < account_nonce c1) inc.
Proof.
  intros tx st c1 inc.
  destruct (chain_after_spec tx st c) as (Hs & Hl & Hn).
  destruct (Hn eq_refl) as [Hle Hland].
  split; [assumption|]. split; [assumption|]. split; [assumption|].
  subst inc. destruct (landed st).
  - split; [repeat constructor|]. constructor; [|constructor].
    fold c1 in Hland. rewrite (Hland eq_refl). cbn. lia.
  - split; constructor.
Qed.

(** One block, the chain's side: every attempt is received; what landed
    enters the ledger in the order sent, with nonces that increase and lie
    between the account nonce before and after. *)
Lemma submit_chain net signer b retries : forall c c' g res,
  submit net signer b retries c = (c', g, res) ->
  submissions c' = submissions c + length g /\
  account_nonce c <= account_nonce c' /\
  ledger c' = ledger c ++ included_of net (submissions c) g /\
  StronglySorted lt (map tx_nonce (included_of net (submissions c) g)) /\
  Forall (fun tx => account_nonce c <= tx_nonce tx < account_nonce c')
         (included_of net (submissions c) g).
Proof.
  assert (Hstop : forall c,
    let tx := request signer b (account_nonce c) in
    let c1 := chain_after tx (net_status net (submissions c)) c in
    submissions c1 = submissions c + length [tx] /\
    account_nonce c <= account_nonce c1 /\
    ledger c1 = ledger c ++ included_of net (submissions c) [tx] /\
    StronglySorted lt (map tx_nonce (included_of net (submissions c) [tx])) /\
    Forall (fun t => account_nonce c <= tx_nonce t < account_nonce c1)
           (included_of net (submissions c) [tx])).
  { intros c tx c1. rewrite included_of_cons.
    change (included_of net (S (submissions c)) []) with (@nil Transaction).
    rewrite app_nil_r. cbn [length]. rewrite Nat.add_1_r.
    apply attempt_chain. }
  assert (Hretry : forall c c2 g2,
    let tx := request signer b (account_nonce c) in
    let c1 := chain_after tx (net_status net (submissions c)) c in
    (submissions c2 = submissions c1 + length g2 /\
     account_nonce c1 <= account_nonce c2 /\
     ledger c2 = ledger c1 ++ included_of net (submissions c1) g2 /\
     StronglySorted lt (map tx_nonce (included_of net (submissions c1) g2)) /\
     Forall (fun t => account_nonce c1 <= tx_nonce t < account_nonce c2)
            (included_of net (submissions c1) g2)) ->
    submissions c2 = submissions c + length (tx :: g2) /\
    account_nonce c <= account_nonce c2 /\
    ledger c2 = ledger c ++ included_of net (submissions c) (tx :: g2) /\
    StronglySorted lt (map tx_nonce (included_of net (submissions c) (tx :: g2))) /\
    Forall (fun t => account_nonce c <= tx_nonce t < account_nonce c2)
           (included_of net (submissions c) (tx :: g2))).
  { intros c c2 g2 tx c1 (Hs2 & Hle2 & Hl2 & Hsort2 & Hr2).
    destruct (attempt_chain net signer b c) as (Hs1 & Hle1 & Hl1 & Hsort1 & Hr1).
    fold tx in Hs1, Hle1, Hl1, Hsort1, Hr1. fold c1 in Hs1, Hle1, Hl1, Hr1.
    rewrite Hs1 in *. rewrite included_of_cons.
    split; [cbn [length]; lia|]. split; [lia|].
    split; [rewrite Hl2, Hl1, <- app_assoc; reflexivity|].
    now apply sorted_ranges with (b := account_nonce c1). }
  induction retries as [|r IH]; intros c c' g res H; cbn [submit] in H.
  - specialize (Hstop c). cbn zeta in Hstop.
    destruct (net_status net (submissions c)); injection H as <- <- <-; exact Hstop.
  - specialize (Hstop c). specialize (Hretry c). cbn zeta in Hstop, Hretry.
    destruct (net_status net (submissions c)) eqn:Es; cbn [transient] in H;
      try (injection H as <- <- <-; exact Hstop).
    all: match type of H with
         | context [submit _ _ _ _ ?c1] =>
             destruct (submit net signer b r c1) as [[c2 g2] res2] eqn:E
         end;
      injection H as <- <- <-; apply IH in E; exact (Hretry _ _ E).
Qed.

(** One block, the sender's side. *)
Lemma submit_attempts net signer b retries : forall c c' g res,
  submit net signer b retries c = (c', g, res) ->
  exists front last,
    g = front ++ [last] /\
    length g <= S retries /\
    Forall (fun tx => tx = request signer b (tx_nonce tx)) g /\
    Forall (fun a => transient (snd a) = true) (answered net (submissions c) front) /\
    match res with
    | inl tx => last = tx /\ net_status net (submissions c + length front) = Included
    | inr st => net_status net (submissions c + length front) = st /\ st <> Included
    end.
Proof.
  assert (Hone : forall c res,
    res = match net_status net (submissions c) with
          | Included => inl (request signer b (account_nonce c))
          | st => inr st
          end ->
    exists front last,
      [request signer b (account_nonce c)] = front ++ [last] /\
      Forall (fun tx => tx = request signer b (tx_nonce tx))
             [request signer b (account_nonce c)] /\
      Forall (fun a => transient (snd a) = true) (answered net (submissions c) front) /\
      match res with
      | inl tx => last = tx /\ net_status net (submissions c + length front) = Included
      | inr st => net_status net (submissions c + length front) = st /\ st <> Included
      end).
  { intros c res ->. exists [], (request signer b (account_nonce c)).
    split; [reflexivity|]. split; [repeat constructor|]. split; [constructor|].
    cbn [length]. rewrite Nat.add_0_r.
    destruct (net_status net (submissions c)); split; (reflexivity || discriminate). }
  induction retries as [|r IH]; intros c c' g res H; cbn [submit] in H.
  - destruct (Hone c res) as (front & last & Hg & Hreq & Hfront & Hres).
    { destruct (net_status net (submissions c)); now injection H as <- <- <-. }
    exists front, last.
    assert (g = [request signer b (account_nonce c)]) as ->
      by (destruct (net_status net (submissions c)); now injection H as <- <- <-).
    split; [assumption|]. split; [cbn; lia|]. split; [assumption|]. split; assumption.
  - destruct (net_status net (submissions c)) eqn:Es; cbn [transient] in H.
    all: try (destruct (Hone c res) as (front & last & Hg & Hreq & Hfront & Hres);
              [rewrite Es; now injection H as <- <- <-|];
              exists front, last; injection H as <- <- <-;
              split; [assumption|]; split; [cbn; lia|]; split; [assumption|];
              split; assumption).
    all: match type of H with
         | context [submit _ _ _ _ ?c1] =>
             destruct (submit net signer b r c1) as [[c2 g2] res2] eqn:E
         end;
      injection H as <- <- <-;
      apply IH in E as (front & last & -> & Hlen & Hreq & Hfront & Hres);
      exists (request signer b (account_nonce c) :: front), last;
      cbn [submissions chain_after] in *;
      (split; [reflexivity|]); (split; [cbn [length app] in *; lia|]);
      (split; [constructor; [reflexivity|assumption]|]);
      (split; [cbn [answered]; constructor; [cbn [snd]; now rewrite Es|assumption]|]);
      cbn [length]; rewrite Nat.add_succ_r; exact Hres.
Qed.

(** The worker, the chain's side. *)
Lemma worker_chain net signer queue : forall c,
  submissions (final_chain (worker net signer queue c)) =
    submissions c + length (sent_of (worker net signer queue c)) /\
  account_nonce c <= account_nonce (final_chain (worker net signer queue c)) /\
  ledger (final_chain (worker net signer queue c)) =
    ledger c ++ included_of net (submissions c) (sent_of (worker net signer queue c)) /\
  StronglySorted lt
    (map tx_nonce (included_of net (submissions c) (sent_of (worker net signer queue c)))) /\
  Forall (fun tx => account_nonce c <= tx_nonce tx <
                    account_nonce (final_chain (worker net signer queue c)))
         (included_of net (submissions c) (sent_of (worker net signer queue c))).
Proof.
  unfold final_chain, sent_of.
  induction queue as [|[i b] queue IH]; intros c; cbn [worker].
  - cbn. rewrite app_nil_r. repeat split; (lia || constructor).
  - destruct (submit net signer b (net_retries net) c) as [[c' g] res] eqn:E.
    apply submit_chain in E as (Hs & Hle & Hl & Hsort & Hr).
    destruct (IH c') as (Hs' & Hle' & Hl' & Hsort' & Hr').
    destruct (worker net signer queue c') as [[c'' sent] results]. cbn [fst snd] in *.
    rewrite included_of_app, <- Hs.
    split; [rewrite Hs', Hs, length_app; lia|]. split; [lia|].
    split; [rewrite Hl', Hl, <- app_assoc; reflexivity|].
    split.
    + rewrite map_app. clear Hl Hl'.
      induction (included_of net (submissions c) g) as [|tx l IHl]; cbn [map app].
      * assumption.
      * apply StronglySorted_inv in Hsort as [Hsort Hlt].
        apply Forall_cons_iff in Hr as [Htx Hr].
        constructor; [apply IHl; assumption|].
        apply Forall_app. split; [assumption|].
        apply Forall_map. revert Hr'. apply Forall_impl. intros; lia.
    + apply Forall_app. split.
      * revert Hr. apply Forall_impl. intros; lia.
      * revert Hr'. apply Forall_impl. intros; lia.
Qed.

(** The worker, the sender's side: the transactions sent are the attempts
    for the dequeued blocks, block by block. *)
Lemma worker_grouped net signer queue : forall c,
  exists groups,
    sent_of (worker net signer queue c) = concat groups /\
    grouped net signer (submissions c) (results_of (worker net signer queue c)) groups.
Proof.
  unfold sent_of, results_of.
  induction queue as [|[i b] queue IH]; intros c; cbn [worker].
  - exists []. split; reflexivity.
  - destruct (submit net signer b (net_retries net) c) as [[c' g] res] eqn:E.
    pose proof (submit_chain _ _ _ _ _ _ _ _ E) as (Hs & _).
    apply submit_attempts in E.
    destruct (IH c') as (groups & Hsent & Hgr).
    destruct (worker net signer queue c') as [[c'' sent] results]. cbn [fst snd] in *.
    exists (g :: groups). split; [cbn; now rewrite Hsent|].
    cbn [grouped]. rewrite <- Hs. split; [|assumption].
    destruct res; exact E.
Qed.

(** The transaction reported for a block is the request for that block and
    is among the included ones. *)
Lemma grouped_submitted net signer results : forall k groups i b tx,
  grouped net signer k results groups ->
  In (Submitted i b tx) results ->
  tx = request signer b (tx_nonce tx) /\ In tx (included_of net k (concat groups)).
Proof.
  induction results as [|r results IH]; intros k groups i b tx Hgr Hin; [easy|].
  destruct groups as [|g groups]; [easy|]. destruct Hgr as [Hg Hgr].
  cbn [concat]. rewrite included_of_app.
  destruct Hin as [-> | Hin].
  - destruct Hg as (front & last & -> & _ & Hreq & _ & -> & Hst). cbn [result_block snd] in *.
    split.
    + apply Forall_app in Hreq as [_ Hreq]. now apply Forall_inv in Hreq.
    + apply in_or_app. left. rewrite included_of_app. apply in_or_app. right.
      rewrite included_of_cons, Hst. now left.
  - destruct (IH _ _ _ _ _ Hgr Hin) as [Hreq Hinc].
    split; [assumption|]. apply in_or_app. now right.
Qed.

(** Every transaction sent carries the payload of the block it was sent
    for, and blocks are served in the order of the results. *)
Lemma grouped_payloads net signer results : forall k groups,
  grouped net signer k results groups ->
  Forall2 (fun ib g =>
             g <> [] /\
             length g <= S (net_retries net) /\
             Forall (fun tx => tx_call tx = put_data_object /\
                               tx_payload tx = payload (snd ib) /\
                               tx_signer tx = signer) g)
          (map result_block results) groups.
Proof.
  induction results as [|r results IH]; intros k [|g groups] Hgr;
    try (now destruct Hgr).
  destruct Hgr as [(front & last & -> & Hlen & Hreq & _) Hgr].
  cbn [map]. constructor; [|eapply IH; eassumption].
  split; [now destruct front|]. split; [assumption|].
  revert Hreq. apply Forall_impl. intros tx ->. cbn. auto.
Qed.

(** When nothing answered as failed landed, the included transactions are
    those of the successfully processed blocks. *)
Lemma grouped_included net signer results : forall k groups,
  grouped net signer k results groups ->
  Forall (fun a => landed (snd a) = true -> snd a = Included)
         (answered net k (concat groups)) ->
  included_of net k (concat groups) = accepted results.
Proof.
  induction results as [|r results IH]; intros k [|g groups] Hgr Hans; try easy.
  destruct Hgr as [(front & last & -> & _ & _ & Hfront & Hres) Hgr].
  cbn [concat] in *. rewrite answered_app in Hans. apply Forall_app in Hans as [Hg Hans].
  rewrite included_of_app, (IH _ _ Hgr Hans).
  rewrite answered_app in Hg. apply Forall_app in Hg as [Hf Hl].
  cbn [answered] in Hl. apply Forall_inv in Hl. cbn [snd] in Hl.
  rewrite included_of_app, included_of_cons.
  assert (included_of net k front = []) as ->.
  { unfold included_of. clear Hres Hl.
    induction (answered net k front) as [|[t s] l IHl]; [reflexivity|].
    apply Forall_cons_iff in Hfront as [Ht Hfront]. apply Forall_cons_iff in Hf as [Hi Hf].
    cbn [filter snd] in *. destruct (landed s) eqn:El.
    - apply transient_not_included in Ht. now specialize (Hi eq_refl).
    - now apply IHl. }
  unfold accepted. cbn [flat_map app]. f_equal.
  destruct r as [i b tx | i b st]; cbn [result_outcome] in Hres.
  - destruct Hres as [-> Hst]. now rewrite Hst.
  - destruct Hres as [Hst Hne]. destruct (landed (net_status net (k + length front))) eqn:El.
    + specialize (Hl eq_refl). congruence.
    + reflexivity.
Qed.

Lemma effects_idle net tr c :
  Forall (fun e => is_subscribe e = false) tr -> effects net tr c = (c, [], []).
Proof.
  induction 1 as [|e tr He H IH]; [reflexivity|].
  cbn [effects]. destruct e; try discriminate; cbn [effect]; now rewrite IH.
Qed.

Lemma effects_app net tr1 tr2 : forall c c1,
  effects net tr1 c = (c1, [], []) -> effects net (tr1 ++ tr2) c = effects net tr2 c1.
Proof.
  induction tr1 as [|e tr1 IH]; intros c c1 H.
  - now injection H as <-.
  - cbn [effects app] in *.
    destruct (effect net e c) as [[c2 txs2] res2].
    destruct (effects net tr1 c2) as [[c3 txs3] res3] eqn:E.
    injection H as -> Htx Hres.
    apply app_eq_nil in Htx as [-> ->]. apply app_eq_nil in Hres as [-> ->].
    rewrite (IH c2 c1 E).
    destruct (effects net tr2 c1) as [[c4 txs4] res4]. reflexivity.
Qed.

Lemma effects_subscribe net p c :
  effects net [EvSubscribe p] c = drive net p c.
Proof.
  cbn. destruct (drive net p c) as [[c' txs] res]. now rewrite !app_nil_r.
Qed.

Lemma merge_nil {A} arrival : @merge A arrival [] = [].
Proof. now destruct arrival. Qed.

(** ** The claims *)

(** C1 (amended): driving the pipeline yields one result per dequeued block,
    in dequeue order; the account's ledger gains the submissions that
    landed, in the order sent; the transaction reported for a successfully
    processed block is the "put data object" call with the block's payload,
    signed by the Target's signer, and is among them; the nonces of the
    transactions that landed are strictly increasing (hence unique) and
    none is below the account nonce the relay started from; and when no
    submission answered as failed has landed, the ledger gains exactly the
    transactions of the successfully processed blocks, one per block. *)
Theorem one_transaction_per_processed_block net p c :
  map result_block (results_of (drive net p c)) = dequeued net p /\
  ledger (final_chain (drive net p c)) =
    ledger c ++ included_of net (submissions c) (sent_of (drive net p c)) /\
  Forall (fun r => match r with
                   | Submitted _ b tx =>
                       tx_call tx = put_data_object /\
                       tx_payload tx = payload b /\
                       tx_signer tx = target_signer (pipe_target p) /\
                       In tx (included_of net (submissions c) (sent_of (drive net p c)))
                   | NotSubmitted _ _ _ => True
                   end) (results_of (drive net p c)) /\
  StronglySorted lt
    (map tx_nonce (included_of net (submissions c) (sent_of (drive net p c)))) /\
  Forall (fun tx => account_nonce c <= tx_nonce tx)
         (included_of net (submissions c) (sent_of (drive net p c))) /\
  (Forall (fun a => landed (snd a) = true -> snd a = Included)
          (answered net (submissions c) (sent_of (drive net p c))) ->
   included_of net (submissions c) (sent_of (drive net p c)) =
     accepted (results_of (drive net p c))).
Proof.
  unfold drive.
  destruct (worker_chain net (target_signer (pipe_target p)) (dequeued net p) c)
    as (_ & _ & Hl & Hsort & Hrange).
  destruct (worker_grouped net (target_signer (pipe_target p)) (dequeued net p) c)
    as (groups & Hsent & Hgr).
  split; [apply worker_results|]. split; [assumption|]. split.
  - apply Forall_forall. intros [i b tx | i b st] Hin; [|exact I].
    destruct (grouped_submitted net (target_signer (pipe_target p)) _ _ _ _ _ _ Hgr Hin)
      as [Hreq Hinc].
    rewrite Hsent. rewrite Hreq at 1 2 3. cbn. auto.
  - split; [assumption|]. split.
    + revert Hrange. apply Forall_impl. intros; lia.
    + rewrite Hsent. now apply grouped_included with (signer := target_signer (pipe_target p)).
Qed.

Lemma one_transaction_per_processed_block_witness :
  map tx_nonce (included_of sample_network 0
                  (sent_of (drive sample_network sample_pipeline fresh_account))) =
    [14; 15] /\
  included_of sample_network 0
    (sent_of (drive sample_network sample_pipeline fresh_account)) =
    accepted (results_of (drive sample_network sample_pipeline fresh_account)).
Proof.
  split; [reflexivity|].
  apply (proj2 (proj2 (proj2 (proj2 (proj2
           (one_transaction_per_processed_block sample_network sample_pipeline
              fresh_account)))))).
  repeat (constructor; [cbn; intros H; (reflexivity || discriminate H)|]).
  constructor.
Defined.

(** C1 as worded fails for the transactions sent: block 1 of "ws://a" is
    answered with a stale nonce and sent again, so two transactions carry
    its payload, and the nonce of the attempt rejected for block 7 is used
    again for block 2. *)
Lemma retry_sends_the_payload_again :
  map (fun t => (tx_payload t, tx_nonce t))
      (sent_of (drive sample_network sample_pipeline fresh_account)) =
    [([x01], 10); ([x01], 14); ([x07], 15); ([x02], 15)] /\
  ~ submitted_once_each sample_network sample_pipeline fresh_account.
Proof.
  split; [reflexivity|].
  intros [Hone _].
  specialize (Hone 0 {| sourceId := "ws://a"; height := 1; payload := [x01] |}
                {| tx_call := put_data_object; tx_payload := [x01]; tx_nonce := 14;
                   tx_signer := {| address := "//Alice" |} |}).
  discriminate Hone. now left.
Qed.

(** C2: the worker produces one result per dequeued block, in dequeue
    order; the blocks dequeued from one input sequence are the beginning of
    that sequence, in its order; every interleaving that keeps each
    sequence's own order is the dequeue order under some arrival order; the
    transactions are sent block by block in dequeue order: the attempts for
    a dequeued block (at least one, at most one more than the retries
    allowed, each the "put data object" call with that block's payload,
    signed by the Target's signer) follow all attempts for the blocks
    dequeued before it; and the ledger gains the submissions that landed in
    the order sent. *)
Theorem per_source_order_preserved net p c i :
  map result_block (results_of (drive net p c)) = dequeued net p /\
  (exists rest,
     nth i (map (blocks_of net) (pipe_inputs p)) [] =
       from_source i (dequeued net p) ++ rest) /\
  (forall m,
     Interleaving (queues_from net 0 (pipe_inputs p)) m ->
     exists arrival, merge arrival (queues_from net 0 (pipe_inputs p)) = m) /\
  (exists groups,
     sent_of (drive net p c) = concat groups /\
     Forall2 (fun ib g =>
                g <> [] /\
                length g <= S (net_retries net) /\
                Forall (fun tx => tx_call tx = put_data_object /\
                                  tx_payload tx = payload (snd ib) /\
                                  tx_signer tx = target_signer (pipe_target p)) g)
             (dequeued net p) groups) /\
  ledger (final_chain (drive net p c)) =
    ledger c ++ included_of net (submissions c) (sent_of (drive net p c)).
Proof.
  split; [apply worker_results|]. split; [|split; [|split]].
  - destruct (merge_keeps_source_order (net_arrival net)
                (queues_from net 0 (pipe_inputs p)) i) as [rest Hrest].
    + intros j q Hj. apply (queues_from_tags net _ 0 j q Hj).
    + exists rest. unfold dequeued. rewrite <- Hrest.
      rewrite <- queues_from_blocks with (n := 0).
      now rewrite <- (map_nth (map snd)).
  - apply merge_any_interleaving.
  - unfold drive.
    destruct (worker_grouped net (target_signer (pipe_target p)) (dequeued net p) c)
      as (groups & Hsent & Hgr).
    exists groups. split; [assumption|].
    rewrite <- (worker_results net (target_signer (pipe_target p)) (dequeued net p) c).
    apply grouped_payloads with (k := submissions c). assumption.
  - unfold drive. apply worker_chain.
Qed.

Lemma per_source_order_preserved_witness :
  exists arrival,
    merge arrival (queues_from sample_network 0 (pipe_inputs sample_pipeline)) =
      [(1, {| sourceId := "ws://b"; height := 7; payload := [x07] |});
       (0, {| sourceId := "ws://a"; height := 1; payload := [x01] |});
       (0, {| sourceId := "ws://a"; height := 2; payload := [x02] |})].
Proof.
  apply (proj1 (proj2 (proj2 (per_source_order_preserved sample_network sample_pipeline
                                fresh_account 0)))).
  apply (il_take [[(0, {| sourceId := "ws://a"; height := 1; payload := [x01] |});
                   (0, {| sourceId := "ws://a"; height := 2; payload := [x02] |})]]
                 (1, {| sourceId := "ws://b"; height := 7; payload := [x07] |}) [] []).
  apply (il_take [] (0, {| sourceId := "ws://a"; height := 1; payload := [x01] |})
                 [(0, {| sourceId := "ws://a"; height := 2; payload := [x02] |})] [[]]).
  apply (il_take [] (0, {| sourceId := "ws://a"; height := 2; payload := [x02] |}) [] [[]]).
  apply il_done. repeat constructor.
Defined.




(** C4: when every startup step succeeds, the run is exactly: load the
    config, connect the target with the registry, derive the signer from the
    configured seed, construct the Target from both; open one connection per
    configured source url, in order; per source, query the chain identity
    and construct the Source (the sources' calls interleave as their
    promises settle); call [subscribeBlocks()] on every Source, in order;
    call [processBlocks] on the collected subscriptions; subscribe to its
    result.  The top-level function then returns. *)
Theorem startup_sequence w :
  startup_succeeds w ->
  exists signer sources settling,
    env_keyring w (accountSeed (env_config w)) = Some signer /\
    map source_api sources = map source_api_of (source_providers w) /\
    Interleaving
      (map (fun s => [EvSystemChain (source_api s);
                      EvNewSource (source_api s) (source_chain s)]) sources)
      settling /\
    trace w =
      [EvLoadConfig;
       EvNewWsProvider (target_provider w);
       EvApiCreate (target_provider w) (Some types);
       EvGetAccount (accountSeed (env_config w));
       EvNewTarget (target_api_of w) signer] ++
      flat_map (fun p => [EvNewWsProvider p; EvApiCreate p None])
               (providers_from 1 (sourceChainUrls (env_config w))) ++
      settling ++
      map EvSubscribeBlocks sources ++
      [EvProcessBlocks (target_of w signer) (map subscribeBlocks sources);
       EvSubscribe (processBlocks (target_of w signer) (map subscribeBlocks sources))] /\
    outcome w = Normal tt.
Proof.
  intros H.
  destruct (run_success w H) as (signer & sources & settling & Ek & Hb & Hil & _ & Hrun).
  exists signer, sources, settling. unfold trace, outcome. rewrite Hrun.
  repeat split; auto.
  apply (pending_connecting w _ _ Hb).
Qed.

Lemma startup_sequence_witness :
  startup_succeeds (sample_world [] [1; 0; 1; 0]) /\
  (exists signer sources settling,
    env_keyring (sample_world [] [1; 0; 1; 0]) "//Alice" = Some signer /\
    map source_api sources =
      map source_api_of (source_providers (sample_world [] [1; 0; 1; 0])) /\
    Interleaving
      (map (fun s => [EvSystemChain (source_api s);
                      EvNewSource (source_api s) (source_chain s)]) sources)
      settling /\
    trace (sample_world [] [1; 0; 1; 0]) =
      [EvLoadConfig;
       EvNewWsProvider (target_provider (sample_world [] [1; 0; 1; 0]));
       EvApiCreate (target_provider (sample_world [] [1; 0; 1; 0])) (Some types);
       EvGetAccount "//Alice";
       EvNewTarget (target_api_of (sample_world [] [1; 0; 1; 0])) signer] ++
      flat_map (fun p => [EvNewWsProvider p; EvApiCreate p None])
               (providers_from 1 ["ws://a"; "ws://b"]) ++
      settling ++
      map EvSubscribeBlocks sources ++
      [EvProcessBlocks (target_of (sample_world [] [1; 0; 1; 0]) signer)
                       (map subscribeBlocks sources);
       EvSubscribe (processBlocks (target_of (sample_world [] [1; 0; 1; 0]) signer)
                                  (map subscribeBlocks sources))] /\
    outcome (sample_world [] [1; 0; 1; 0]) = Normal tt).
Proof.
  split; [apply sample_startup_succeeds; cbn; lia|].
  apply (startup_sequence (sample_world [] [1; 0; 1; 0])).
  apply sample_startup_succeeds. cbn. lia.
Defined.




(** C6: the first connection of every run is the target's, and it is
    created with the registry [{ PutDataObject: "Vec<u8>" }]; the Target, the
    pipeline and its subscription are built over that connection, and no
    other connection is given a registry. *)
Theorem target_connects_with_registry w :
  exists rest,
    trace w = EvLoadConfig
              :: EvNewWsProvider (target_provider w)
              :: EvApiCreate (target_provider w) (Some [("PutDataObject", "Vec<u8>")])
              :: rest /\
    (forall p t, In (EvApiCreate p t) rest -> t = None) /\
    (forall api signer, In (EvNewTarget api signer) (trace w) ->
       api = {| api_provider := target_provider w;
                api_types := Some [("PutDataObject", "Vec<u8>")] |}) /\
    (forall target subs, In (EvProcessBlocks target subs) (trace w) ->
       api_types (target_api target) = Some [("PutDataObject", "Vec<u8>")]).
Proof.
  unfold trace. run_cases w; rewrite Hrun; cbn [fst].
  - exists []. cbn. repeat split; intros; intuition (try discriminate).
  - eexists. cbn. split; [reflexivity|].
    repeat split; cbn; intros; intuition (try discriminate).
  - pose proof (Loop_events _ _ _ _ _ HL) as Hevs.
    set (tail := match r with
                 | Normal sources => wiring_events (target_of w signer) sources
                 | _ => []
                 end).
    assert (Htail : tail = [] \/
                    exists sources, tail = wiring_events (target_of w signer) sources).
    { subst tail. destruct r; eauto. }
    clearbody tail.
    eexists. split; [reflexivity|].
    assert (Hin : forall e, In e (open_events (source_providers w) ++ evs ++ tail) ->
                  (exists p, e = EvApiCreate p None) \/
                  (forall p t, e <> EvApiCreate p t) /\
                  (forall a s, e <> EvNewTarget a s) /\
                  (forall t subs, e = EvProcessBlocks t subs -> t = target_of w signer)).
    { intros e He. rewrite !in_app_iff in He. destruct He as [He | [He | He]].
      - apply in_flat_map in He as (p & _ & [<- | [<- | []]]);
          [right; repeat split; intros; discriminate | left; eauto].
      - rewrite Forall_forall in Hevs. specialize (Hevs e He).
        right. destruct e; try discriminate; repeat split; intros; discriminate.
      - destruct Htail as [-> | [sources ->]]; [destruct He|].
        unfold wiring_events in He. rewrite in_app_iff in He.
        right. destruct He as [He | [<- | [<- | []]]].
        + apply in_map_iff in He as (s & <- & _). repeat split; intros; discriminate.
        + repeat split; try (intros; discriminate). intros t subs [= <- _]. reflexivity.
        + repeat split; intros; discriminate. }
    repeat split.
    + intros p t [He | [He | He]]; try discriminate.
      destruct (Hin _ He) as [[p' [= _ ->]] | (Hn & _)]; [reflexivity|].
      now destruct (Hn p t).
    + intros api s [He | [He | [He | [He | [He | He]]]]]; try discriminate.
      * injection He as <- _. reflexivity.
      * destruct (Hin _ He) as [[p' ?] | (_ & Hn & _)]; [discriminate|].
        now destruct (Hn api s).
    + intros target subs [He | [He | [He | [He | [He | He]]]]]; try discriminate.
      destruct (Hin _ He) as [[p' ?] | (_ & _ & Hp)]; [discriminate|].
      now rewrite (Hp _ _ eq_refl).
Qed.

(** C7: in a run that calls [processBlocks], nothing has happened on the
    target chain up to and including that call; the only call after it is
    the subscription to the sequence it returned, and what the run does on
    the target chain is what driving that sequence does. *)
Theorem processBlocks_starts_nothing w net c pre target subs post :
  trace w = pre ++ EvProcessBlocks target subs :: post ->
  effects net (pre ++ [EvProcessBlocks target subs]) c = (c, [], []) /\
  post = [EvSubscribe (processBlocks target subs)] /\
  effects net (trace w) c =
    drive net (processBlocks target subs) c.
Proof.
  unfold trace. intros Htr.
  assert (Hno : forall evs, Forall (fun x => is_processBlocks x = false) evs ->
                            evs <> pre ++ EvProcessBlocks target subs :: post).
  { intros evs Hall ->. rewrite Forall_app in Hall. destruct Hall as [_ Hall].
    inversion Hall; discriminate. }
  run_cases w; rewrite Hrun in *; cbn [fst] in *.
  1,2: exfalso; eapply Hno; [|exact Htr]; repeat constructor.
  pose proof (Loop_events _ _ _ _ _ HL) as Hevs.
  assert (Hquiet : Forall (fun e => is_subscribe e = false /\ is_processBlocks e = false)
                     (startup_events w signer ++ open_events (source_providers w) ++ evs)).
  { rewrite !Forall_app. repeat split.
    - repeat constructor.
    - unfold open_events. apply Forall_forall. intros e He.
      apply in_flat_map in He as (q & _ & [<- | [<- | []]]); split; reflexivity.
    - revert Hevs. apply Forall_impl. now intros []. }
  destruct r as [sources | e |].
  2,3: exfalso; eapply Hno; [|exact Htr]; rewrite app_nil_r, !app_assoc;
       revert Hquiet; rewrite !app_assoc; apply Forall_impl; tauto.
  unfold wiring_events in Htr. rewrite !app_assoc in Htr.
  assert (Hquiet' : Forall (fun e => is_subscribe e = false /\ is_processBlocks e = false)
                      (((startup_events w signer ++ open_events (source_providers w)) ++ evs)
                       ++ map EvSubscribeBlocks sources)).
  { rewrite Forall_app. split; [now rewrite <- !app_assoc|].
    apply Forall_map, Forall_forall. intros; split; reflexivity. }
  apply cut_at_last_but_one with (P := is_processBlocks) in Htr
    as (-> & [= -> ->] & ->); try reflexivity.
  2:{ revert Hquiet'. apply Forall_impl. tauto. }
  assert (Hidle : forall tail, Forall (fun e => is_subscribe e = false) tail ->
     effects net ((((startup_events w signer ++ open_events (source_providers w)) ++ evs)
                    ++ map EvSubscribeBlocks sources) ++ tail) c = (c, [], [])).
  { intros tail Htail. apply effects_idle. rewrite Forall_app. split; [|assumption].
    revert Hquiet'. apply Forall_impl. tauto. }
  split; [apply Hidle; repeat constructor|]. split; [reflexivity|].
  unfold wiring_events. rewrite !app_assoc.
  change [EvProcessBlocks (target_of w signer) (map subscribeBlocks sources);
          EvSubscribe (processBlocks (target_of w signer) (map subscribeBlocks sources))]
    with ([EvProcessBlocks (target_of w signer) (map subscribeBlocks sources)] ++
          [EvSubscribe (processBlocks (target_of w signer) (map subscribeBlocks sources))]).
  rewrite app_assoc. rewrite effects_app with (c1 := c) by (apply Hidle; repeat constructor).
  apply effects_subscribe.
Qed.

Lemma processBlocks_starts_nothing_witness :
  trace (sample_world [] [0; 1; 1; 0]) =
    firstn 15 (trace (sample_world [] [0; 1; 1; 0])) ++
    EvProcessBlocks sample_target (map subscribeBlocks sample_sources) ::
    [EvSubscribe sample_pipeline] /\
  effects sample_network
    (firstn 15 (trace (sample_world [] [0; 1; 1; 0])) ++
     [EvProcessBlocks sample_target (map subscribeBlocks sample_sources)])
    fresh_account = (fresh_account, [], []) /\
  [EvSubscribe sample_pipeline] = [EvSubscribe sample_pipeline] /\
  effects sample_network (trace (sample_world [] [0; 1; 1; 0])) fresh_account =
    drive sample_network sample_pipeline fresh_account.
Proof.
  split; [reflexivity|].
  apply (processBlocks_starts_nothing (sample_world [] [0; 1; 1; 0]) sample_network
           fresh_account (firstn 15 (trace (sample_world [] [0; 1; 1; 0])))
           sample_target (map subscribeBlocks sample_sources)
           [EvSubscribe sample_pipeline]).
  reflexivity.
Defined.

(** C8: with an empty [sourceChainUrls] (and the target connection and the
    signer succeeding) the run is the target startup followed by
    [processBlocks([])] and the subscription to its result, whatever the
    environment's io order; the top-level function returns, the process does
    not exit, and driving the pipeline submits nothing to the target chain. *)
Theorem no_sources_no_submissions w signer :
  sourceChainUrls (env_config w) = [] ->
  env_reachable w (target_provider w) = true ->
  env_keyring w (accountSeed (env_config w)) = Some signer ->
  trace w = startup_events w signer ++
            [EvProcessBlocks (target_of w signer) [];
             EvSubscribe (processBlocks (target_of w signer) [])] /\
  outcome w = Normal tt /\
  exit_code (outcome w) = None /\
  (forall net c, effects net (trace w) c = (c, [], [])).
Proof.
  intros Hurls Ht Ek. unfold trace, outcome.
  destruct (run_connected w signer Ht Ek) as (evs & r & HL & ->).
  unfold source_providers in *. rewrite Hurls in *. cbn [providers_from connecting map] in HL.
  apply Loop_nil in HL as [-> ->]. cbn [fst snd providers_from open_events flat_map app].
  unfold wiring_events. cbn [map app].
  repeat split.
  intros net c.
  rewrite effects_app with (c1 := c) by (apply effects_idle; repeat constructor).
  cbn. unfold drive, dequeued. cbn. now rewrite merge_nil.
Qed.

Lemma no_sources_no_submissions_witness :
  sourceChainUrls (env_config no_sources_world) = [] /\
  env_reachable no_sources_world (target_provider no_sources_world) = true /\
  env_keyring no_sources_world "//Alice" = Some {| address := "//Alice" |} /\
  trace no_sources_world =
    startup_events no_sources_world {| address := "//Alice" |} ++
    [EvProcessBlocks (target_of no_sources_world {| address := "//Alice" |}) [];
     EvSubscribe (processBlocks (target_of no_sources_world {| address := "//Alice" |}) [])] /\
  outcome no_sources_world = Normal tt /\
  exit_code (outcome no_sources_world) = None /\
  (forall net c, effects net (trace no_sources_world) c = (c, [], [])).
Proof.
  do 3 (split; [reflexivity|]).
  apply (no_sources_no_submissions no_sources_world {| address := "//Alice" |});
    reflexivity.
Defined.

(** C9: when startup succeeds, whatever the order in which the source
    promises settle, the subscriptions handed to [processBlocks] are those
    of a Source list aligned with [config.sourceChainUrls]: the i-th Source
    holds the connection opened to the i-th url (the (i+1)-th object
    constructed) and the identity that connection's chain reported; and
    [subscribeBlocks()] is called on exactly these Sources, once each. *)
Theorem sources_aligned_with_urls w :
  startup_succeeds w ->
  exists signer sources,
    In (EvProcessBlocks (target_of w signer) (map subscribeBlocks sources)) (trace w) /\
    length sources = length (sourceChainUrls (env_config w)) /\
    (forall i url,
       nth_error (sourceChainUrls (env_config w)) i = Some url ->
       exists chain,
         env_chain w {| api_provider := {| provider_id := S i; endpoint := url |};
                        api_types := None |} = Some chain /\
         nth_error sources i =
           Some {| source_api := {| api_provider := {| provider_id := S i; endpoint := url |};
                                    api_types := None |};
                   source_chain := chain |}) /\
    subscribed (trace w) = sources /\
    NoDup sources.
Proof.
  intros H.
  destruct (run_success w H) as (signer & sources & settling & Ek & Hb & Hil & Hev & Hrun).
  exists signer, sources. unfold trace. rewrite Hrun. cbn [fst].
  repeat split.
  - rewrite !in_app_iff. do 3 right. unfold wiring_events.
    rewrite in_app_iff. right. now left.
  - apply Forall2_length in Hb. rewrite <- Hb. unfold source_providers.
    apply length_providers_from.
  - intros i url Hi.
    assert (Hp : nth_error (source_providers w) i =
                 Some {| provider_id := S i; endpoint := url |}).
    { unfold source_providers. rewrite nth_error_providers_from, Hi. reflexivity. }
    destruct (Forall2_nth_error_left _ _ _ Hb _ _ Hp) as (s & Hs & _ & c & Hc & ->).
    exists c. split; assumption.
  - unfold subscribed. rewrite !flat_map_app. fold (subscribed (startup_events w signer)).
    fold (subscribed (open_events (source_providers w))). fold (subscribed settling).
    fold (subscribed (wiring_events (target_of w signer) sources)).
    rewrite (subscribed_none (open_events _)) by apply open_events_not_wiring.
    rewrite (subscribed_none settling) by now apply loop_event_not_wiring.
    rewrite subscribed_wiring. reflexivity.
  - eapply built_over_NoDup; [eassumption|]. apply NoDup_providers_from.
Qed.

Lemma sources_aligned_with_urls_witness :
  startup_succeeds (sample_world [] [1; 1; 0; 0]) /\
  (exists signer sources,
    In (EvProcessBlocks (target_of (sample_world [] [1; 1; 0; 0]) signer)
                        (map subscribeBlocks sources))
       (trace (sample_world [] [1; 1; 0; 0])) /\
    length sources = 2 /\
    (forall i url,
       nth_error ["ws://a"; "ws://b"] i = Some url ->
       exists chain,
         env_chain (sample_world [] [1; 1; 0; 0])
           {| api_provider := {| provider_id := S i; endpoint := url |};
              api_types := None |} = Some chain /\
         nth_error sources i =
           Some {| source_api := {| api_provider := {| provider_id := S i; endpoint := url |};
                                    api_types := None |};
                   source_chain := chain |}) /\
    subscribed (trace (sample_world [] [1; 1; 0; 0])) = sources /\
    NoDup sources).
Proof.
  split; [apply sample_startup_succeeds; cbn; lia|].
  apply (sources_aligned_with_urls (sample_world [] [1; 1; 0; 0])).
  apply sample_startup_succeeds. cbn. lia.
Defined.

(** C10: whenever a run opens a source connection, the target connection
    has resolved, the seed has yielded a key pair, and the calls before that
    connection start with the whole target startup, up to the construction
    of the Target.  Hence a run in which the target connection or the signer
    fails opens no source connection. *)
Theorem no_source_connection_before_target w pre e post :
  trace w = pre ++ e :: post ->
  source_connection e = true ->
  env_reachable w (target_provider w) = true /\
  exists signer rest,
    env_keyring w (accountSeed (env_config w)) = Some signer /\
    pre = [EvLoadConfig;
           EvNewWsProvider (target_provider w);
           EvApiCreate (target_provider w) (Some types);
           EvGetAccount (accountSeed (env_config w));
           EvNewTarget (target_api_of w) signer] ++ rest.
Proof.
  unfold trace. intros Htr He.
  assert (Hno : forall evs, Forall (fun x => source_connection x = false) evs ->
                            evs <> pre ++ e :: post).
  { intros evs Hall ->. rewrite Forall_app in Hall. destruct Hall as [_ Hall].
    inversion Hall; congruence. }
  run_cases w; rewrite Hrun in Htr; cbn [fst] in Htr.
  - exfalso. eapply Hno; [|exact Htr]. repeat constructor.
  - exfalso. eapply Hno; [|exact Htr]. repeat constructor.
  - split; [assumption|]. exists signer.
    destruct (cut_after_prefix source_connection _ _ _ _ _ Htr
                (startup_events_not_source w signer) He) as [rest ->].
    exists rest. split; [assumption | reflexivity].
Qed.

Lemma no_source_connection_before_target_witness :
  trace (sample_world [] [1; 0; 0; 0]) =
    firstn 5 (trace (sample_world [] [1; 0; 0; 0])) ++
    EvNewWsProvider {| provider_id := 1; endpoint := "ws://a" |} ::
    skipn 6 (trace (sample_world [] [1; 0; 0; 0])) /\
  source_connection (EvNewWsProvider {| provider_id := 1; endpoint := "ws://a" |}) = true /\
  env_reachable (sample_world [] [1; 0; 0; 0])
    (target_provider (sample_world [] [1; 0; 0; 0])) = true /\
  exists signer rest,
    env_keyring (sample_world [] [1; 0; 0; 0]) "//Alice" = Some signer /\
    firstn 5 (trace (sample_world [] [1; 0; 0; 0])) =
      [EvLoadConfig;
       EvNewWsProvider (target_provider (sample_world [] [1; 0; 0; 0]));
       EvApiCreate (target_provider (sample_world [] [1; 0; 0; 0])) (Some types);
       EvGetAccount "//Alice";
       EvNewTarget (target_api_of (sample_world [] [1; 0; 0; 0])) signer] ++ rest.
Proof.
  split; [reflexivity|]. split; [reflexivity|].
  apply (no_source_connection_before_target (sample_world [] [1; 0; 0; 0])
           (firstn 5 (trace (sample_world [] [1; 0; 0; 0])))
           (EvNewWsProvider {| provider_id := 1; endpoint := "ws://a" |})
           (skipn 6 (trace (sample_world [] [1; 0; 0; 0]))));
    reflexivity.
Defined.

(** ** Further facts about a run *)

(** A list cut at its only element of some kind is cut right there. *)
Lemma cut_unique {A} (P : A -> bool) (l1 : list A) a l2 : forall pre x post,
  l1 ++ a :: l2 = pre ++ x :: post ->
  Forall (fun y => P y = false) l1 ->
  Forall (fun y => P y = false) l2 ->
  P x = true ->
  pre = l1 /\ x = a /\ post = l2.
Proof.
  induction l1 as [|y l1 IH]; intros pre x post Heq Hl1 Hl2 Hx.
  - destruct pre as [|z pre]; cbn in Heq.
    + injection Heq as <- <-. auto.
    + injection Heq as _ ->. rewrite Forall_app in Hl2. destruct Hl2 as [_ Hl2].
      inversion Hl2; congruence.
  - inversion Hl1 as [|? ? Hy Hl1']; subst.
    destruct pre as [|z pre]; cbn in Heq.
    + injection Heq as <- _. congruence.
    + injection Heq as <- Heq.
      destruct (IH _ _ _ Heq Hl1' Hl2 Hx) as (-> & -> & ->). auto.
Qed.

Lemma providers_of_open_events ps :
  constructed_providers (open_events ps) = ps /\
  connected_providers (open_events ps) = ps.
Proof.
  unfold constructed_providers, connected_providers, open_events.
  induction ps as [|p ps [IH1 IH2]]; cbn; [auto|]. now rewrite IH1, IH2.
Qed.

Lemma providers_of_quiet evs :
  Forall (fun e => source_connection e = false /\ loop_event e = true \/
                   wiring_event e = true) evs ->
  constructed_providers evs = [] /\ connected_providers evs = [].
Proof.
  unfold constructed_providers, connected_providers.
  induction 1 as [|e evs He H [IH1 IH2]]; cbn; [auto|].
  rewrite IH1, IH2. destruct e; cbn in He; auto; destruct He as [[_ ?] | ?]; discriminate.
Qed.

Lemma wiring_events_wiring target sources :
  Forall (fun e => wiring_event e = true) (wiring_events target sources).
Proof.
  unfold wiring_events. rewrite Forall_app. split; [|repeat constructor].
  apply Forall_map, Forall_forall. reflexivity.
Qed.

(** What follows the opening of the source connections opens no connection. *)
Lemma after_opening w order sts evs r target :
  Loop w order sts evs r ->
  Forall (fun e => source_connection e = false /\ loop_event e = true \/
                   wiring_event e = true)
         (evs ++ match r with
                 | Normal sources => wiring_events target sources
                 | _ => []
                 end).
Proof.
  intros HL. rewrite Forall_app. split.
  - generalize (Loop_events _ _ _ _ _ HL). apply Forall_impl.
    intros e He. left. destruct e; try discriminate; auto.
  - destruct r; auto.
    generalize (wiring_events_wiring target a). apply Forall_impl. auto.
Qed.

Lemma source_provider_urls w :
  map endpoint (source_providers w) = sourceChainUrls (env_config w).
Proof.
  unfold source_providers. generalize 1.
  induction (sourceChainUrls (env_config w)) as [|url urls IH]; intros n; cbn;
    [reflexivity | now rewrite IH].
Qed.

Lemma NoDup_all_providers w :
  NoDup (map provider_id (target_provider w :: source_providers w)).
Proof.
  cbn. constructor; [|apply NoDup_providers_from].
  intros H. apply in_map_iff in H as (p & Hid & Hp).
  apply providers_from_ids in Hp. lia.
Qed.

(** A rejected task leaves the event loop nothing to do. *)
Lemma Loop_failed_quiet w order sts evs r :
  Loop w order sts evs r -> first_failed w sts <> None -> evs = [].
Proof. intros HL Hf. destruct HL; congruence. Qed.

Lemma awaits_of_settled w sts :
  count_suspended (map (task_of w) sts) = 0 -> total_awaits sts = 0.
Proof.
  unfold total_awaits. induction sts as [|[p ph] sts IH]; simpl; [reflexivity|].
  destruct ph; simpl; intros H; try discriminate; auto.
Qed.

Lemma awaits_left_step w p ph :
  active ph = true ->
  (forall e, snd (next w p ph) <> Failed e) ->
  awaits_left ph = S (awaits_left (snd (next w p ph))).
Proof.
  destruct ph; try discriminate; intros _ Hnf; cbn in *.
  - destruct (env_reachable w p); cbn in *; [reflexivity | now destruct (Hnf _ eq_refl)].
  - destruct (env_chain w (source_api_of p)); cbn in *;
      [reflexivity | now destruct (Hnf _ eq_refl)].
Qed.

(** The joint await resolves only after every awaited promise has settled. *)
Lemma Loop_awaits w order sts evs srcs :
  Loop w order sts evs (Normal srcs) -> total_awaits sts <= length order.
Proof.
  intros HL. remember (Normal srcs) as r eqn:Hr. revert srcs Hr.
  induction HL as [| order sts Hf Hc | | c order sts1 p ph sts2 evs r Hf Hact HL IH];
    intros srcs Hr; try discriminate.
  - rewrite (awaits_of_settled w sts Hc). lia.
  - specialize (IH srcs Hr).
    assert (Hnf : forall e, snd (next w p ph) <> Failed e).
    { intros e He. destruct (next w p ph) as [es ph'] eqn:En. cbn in He. subst ph'.
      destruct (Loop_failed _ _ _ _ _ HL) as [e' He'];
        [cbn; apply first_failed_mid | congruence]. }
    pose proof (total_awaits_mid sts1 p ph (snd (next w p ph)) sts2).
    pose proof (awaits_left_step w p ph Hact Hnf). cbn [length]. lia.
Qed.

(** Every Source constructed while the sources are awaited is built over the
    connection of one of the tasks, which is open, with the identity that
    connection reported, after the identity was queried. *)
Lemma Loop_sources w order sts evs r :
  Loop w order sts evs r ->
  Forall (phase_ok w) sts ->
  forall pre api chain post,
    evs = pre ++ EvNewSource api chain :: post ->
    exists p,
      In p (map fst sts) /\ api = source_api_of p /\
      env_reachable w p = true /\ env_chain w api = Some chain /\
      (In (EvSystemChain api) pre \/ In (p, Querying) sts).
Proof.
  induction 1 as [| | | c order sts1 p ph sts2 evs r Hf Hact HL IH];
    intros Hok pre api chain post Heq; try (now destruct pre).
  assert (Hp : phase_ok w (p, ph)).
  { rewrite Forall_app in Hok. destruct Hok as [_ Hok]. now inversion Hok. }
  assert (Hok' : Forall (phase_ok w) (sts1 ++ (p, snd (next w p ph)) :: sts2)).
  { eapply Forall_mid; [eassumption|]. now apply phase_ok_next. }
  assert (Hquiet : forall e, snd (next w p ph) = Failed e -> evs = []).
  { intros e He. apply (Loop_failed_quiet _ _ _ _ _ HL). rewrite He.
    apply first_failed_mid. }
  assert (Hfst : map fst (sts1 ++ (p, snd (next w p ph)) :: sts2) =
                 map fst (sts1 ++ (p, ph) :: sts2)).
  { now rewrite !map_app. }
  assert (Hkeep : forall q, In (q, Querying) (sts1 ++ (p, snd (next w p ph)) :: sts2) ->
                  (q, Querying) = (p, snd (next w p ph)) \/
                  In (q, Querying) (sts1 ++ (p, ph) :: sts2)).
  { intros q Hq. rewrite in_app_iff in *. cbn in *. intuition. }
  destruct ph; try discriminate; cbn in *.
  - destruct (env_reachable w p) eqn:Er; cbn in *.
    + destruct pre as [|e0 pre]; [discriminate|]. injection Heq as <- Heq.
      destruct (IH Hok' _ _ _ _ Heq) as (q & Hq & -> & Hr & Hc & Hb).
      exists q. rewrite Hfst in Hq. repeat split; auto.
      destruct Hb as [Hb | Hb]; [left; now right|].
      apply Hkeep in Hb as [[= ->] | Hb]; [left; now left | now right].
    + rewrite (Hquiet _ eq_refl) in Heq. now destruct pre.
  - destruct (env_chain w (source_api_of p)) as [c0|] eqn:Ec; cbn in *.
    + destruct pre as [|e0 pre].
      * injection Heq as <- <- _. exists p. repeat split; auto.
        -- rewrite map_app, in_app_iff. right. now left.
        -- right. rewrite in_app_iff. right. now left.
      * injection Heq as <- Heq.
        destruct (IH Hok' _ _ _ _ Heq) as (q & Hq & -> & Hr & Hc & Hb).
        exists q. rewrite Hfst in Hq. repeat split; auto.
        destruct Hb as [Hb | Hb]; [left; now right|].
        apply Hkeep in Hb as [[=] | Hb]. now right.
    + rewrite (Hquiet _ eq_refl) in Heq. now destruct pre.
Qed.

Lemma In_source_providers w p :
  In p (source_providers w) ->
  exists i url,
    nth_error (sourceChainUrls (env_config w)) i = Some url /\
    p = {| provider_id := S i; endpoint := url |}.
Proof.
  intros Hp. apply In_nth_error in Hp as [i Hi]. unfold source_providers in Hi.
  rewrite nth_error_providers_from in Hi.
  destruct (nth_error (sourceChainUrls (env_config w)) i) as [url|] eqn:E;
    [|discriminate].
  injection Hi as <-. now exists i, url.
Qed.

(** A list cut at an element its first part cannot hold is cut inside its
    second part. *)
Lemma cut_in_second {A} (P : A -> bool) (l1 : list A) : forall l2 pre x post,
  l1 ++ l2 = pre ++ x :: post ->
  Forall (fun y => P y = false) l1 ->
  P x = true ->
  exists pre', pre = l1 ++ pre' /\ l2 = pre' ++ x :: post.
Proof.
  induction l1 as [|y l1 IH]; intros l2 pre x post Heq Hl1 Hx.
  - now exists pre.
  - inversion Hl1 as [|? ? Hy Hl1']; subst.
    destruct pre as [|z pre]; cbn in Heq.
    + injection Heq as -> _. congruence.
    + injection Heq as -> Heq.
      destruct (IH _ _ _ _ Heq Hl1' Hx) as (pre' & -> & ->). now exists pre'.
Qed.

(** ... and inside its first part when its second part cannot hold it. *)
Lemma cut_in_first {A} (P : A -> bool) (l1 : list A) : forall l2 pre x post,
  l1 ++ l2 = pre ++ x :: post ->
  Forall (fun y => P y = false) l2 ->
  P x = true ->
  exists post', l1 = pre ++ x :: post' /\ post = post' ++ l2.
Proof.
  induction l1 as [|y l1 IH]; intros l2 pre x post Heq Hl2 Hx; cbn in Heq.
  - subst l2. rewrite Forall_app in Hl2. destruct Hl2 as [_ Hl2].
    inversion Hl2; congruence.
  - destruct pre as [|z pre]; cbn in Heq.
    + injection Heq as <- <-. now exists l1.
    + injection Heq as <- Heq.
      destruct (IH _ _ _ _ Heq Hl2 Hx) as (post' & -> & ->). now exists post'.
Qed.

Lemma Interleaving_In {A} (ls : list (list A)) m :
  Interleaving ls m -> forall l x, In l ls -> In x l -> In x m.
Proof.
  induction 1 as [ls Hnil | ls1 y l0 ls2 m HI IH]; intros l x Hl Hx.
  - rewrite Forall_forall in Hnil. rewrite (Hnil l Hl) in Hx. destruct Hx.
  - rewrite in_app_iff in Hl. cbn in Hl. destruct Hl as [Hl | [<- | Hl]].
    + right. apply (IH l x); [|assumption]. rewrite in_app_iff. now left.
    + destruct Hx as [<- | Hx]; [now left|].
      right. apply (IH l0 x); [|assumption]. rewrite in_app_iff. right. now left.
    + right. apply (IH l x); [|assumption]. rewrite in_app_iff. right. now right.
Qed.

Lemma filter_none {A} (P : A -> bool) l :
  Forall (fun x => P x = false) l -> filter P l = [].
Proof.
  induction 1 as [|x l Hx H IH]; cbn; [reflexivity | now rewrite Hx].
Qed.

(** ** Further properties of the driver *)

(** X1: in every run each [ApiPromise.create] is called on a provider of its
    own: the providers connected are the providers constructed, in the same
    order, no provider occurs twice, and they are the target's provider
    followed by none or by one provider per configured source url. *)
Theorem every_connection_has_its_own_provider w :
  connected_providers (trace w) = constructed_providers (trace w) /\
  NoDup (map provider_id (constructed_providers (trace w))) /\
  (constructed_providers (trace w) = [target_provider w] \/
   constructed_providers (trace w) = target_provider w :: source_providers w).
Proof.
  unfold trace. run_cases w; rewrite Hrun; cbn [fst].
  - cbn. repeat split; auto. repeat constructor. cbn. tauto.
  - cbn. repeat split; auto. repeat constructor. cbn. tauto.
  - pose proof (after_opening w _ _ _ _ (target_of w signer) HL) as Hq.
    apply providers_of_quiet in Hq as [Hq1 Hq2].
    destruct (providers_of_open_events (source_providers w)) as [Ho1 Ho2].
    assert (Hc : constructed_providers
                   (startup_events w signer ++ open_events (source_providers w) ++ evs ++
                    match r with
                    | Normal sources => wiring_events (target_of w signer) sources
                    | _ => []
                    end) = target_provider w :: source_providers w).
    { unfold constructed_providers in *. rewrite !flat_map_app.
      rewrite <- flat_map_app, Hq1, Ho1, app_nil_r. reflexivity. }
    assert (Hd : connected_providers
                   (startup_events w signer ++ open_events (source_providers w) ++ evs ++
                    match r with
                    | Normal sources => wiring_events (target_of w signer) sources
                    | _ => []
                    end) = target_provider w :: source_providers w).
    { unfold connected_providers in *. rewrite !flat_map_app.
      rewrite <- flat_map_app, Hq2, Ho2, app_nil_r. reflexivity. }
    rewrite Hc, Hd. repeat split; auto. apply NoDup_all_providers.
Qed.

(** X2: once the target is constructed, the connections to all configured
    source urls are opened, in configuration order, before any of their
    promises is awaited: whichever source fails and in whatever order the
    promises settle, the run goes on from the target startup with one
    provider and one [ApiPromise.create] per url, and opens no connection
    afterwards. *)
Theorem source_connections_opened_eagerly w signer :
  env_reachable w (target_provider w) = true ->
  env_keyring w (accountSeed (env_config w)) = Some signer ->
  exists rest,
    trace w =
      startup_events w signer ++
      flat_map (fun p => [EvNewWsProvider p; EvApiCreate p None]) (source_providers w) ++
      rest /\
    map endpoint (source_providers w) = sourceChainUrls (env_config w) /\
    constructed_providers rest = [] /\
    connected_providers rest = [].
Proof.
  intros Ht Ek. unfold trace.
  destruct (run_connected w signer Ht Ek) as (evs & r & HL & ->). cbn [fst].
  eexists. split; [reflexivity|]. split; [apply source_provider_urls|].
  apply providers_of_quiet. apply after_opening with (1 := HL).
Qed.

Lemma source_connections_opened_eagerly_witness :
  env_reachable (sample_world ["ws://a"] [0]) (target_provider (sample_world ["ws://a"] [0]))
    = true /\
  env_keyring (sample_world ["ws://a"] [0]) "//Alice" = Some {| address := "//Alice" |} /\
  outcome (sample_world ["ws://a"] [0]) = Thrown (ConnectionError "ws://a") /\
  exists rest,
    trace (sample_world ["ws://a"] [0]) =
      startup_events (sample_world ["ws://a"] [0]) {| address := "//Alice" |} ++
      flat_map (fun p => [EvNewWsProvider p; EvApiCreate p None])
               (source_providers (sample_world ["ws://a"] [0])) ++
      rest /\
    map endpoint (source_providers (sample_world ["ws://a"] [0])) = ["ws://a"; "ws://b"] /\
    constructed_providers rest = [] /\
    connected_providers rest = [].
Proof.
  do 3 (split; [reflexivity|]).
  apply (source_connections_opened_eagerly (sample_world ["ws://a"] [0])
           {| address := "//Alice" |}); reflexivity.
Defined.

Lemma built_sources_healthy w ps sources :
  Forall2 (built_over w) ps sources -> Forall (source_healthy w) ps.
Proof.
  induction 1 as [|p s ps sources (Hr & c & Hc & _) H IH]; constructor; auto.
  split; [assumption | congruence].
Qed.




(** X4: [getAccount] is called at most once, with [config.accountSeed], and
    only right after the target connection has resolved: the calls before it
    are exactly [loadConfig()], the target's provider and its
    [ApiPromise.create]. *)
Theorem getAccount_follows_target_connection w pre seed post :
  trace w = pre ++ EvGetAccount seed :: post ->
  seed = accountSeed (env_config w) /\
  pre = [EvLoadConfig;
         EvNewWsProvider (target_provider w);
         EvApiCreate (target_provider w) (Some types)] /\
  env_reachable w (target_provider w) = true /\
  Forall (fun e => is_getAccount e = false) post.
Proof.
  unfold trace. intros Htr.
  run_cases w; rewrite Hrun in Htr; cbn [fst] in Htr.
  - exfalso. assert (Hall : Forall (fun x => is_getAccount x = false)
                              (pre ++ EvGetAccount seed :: post)).
    { rewrite <- Htr. repeat constructor. }
    rewrite Forall_app in Hall. destruct Hall as [_ Hall]. inversion Hall; discriminate.
  - apply cut_unique with (P := is_getAccount) in Htr as (-> & [= ->] & ->);
      repeat constructor; assumption.
  - unfold startup_events in Htr. rewrite <- app_assoc in Htr. cbn [app] in Htr.
    apply cut_unique with (P := is_getAccount) in Htr as (-> & [= ->] & ->);
      try (repeat constructor; assumption).
    + repeat split; auto. constructor; [reflexivity|].
      rewrite Forall_app. split.
      * apply Forall_forall. intros e He.
        apply in_flat_map in He as (q & _ & [<- | [<- | []]]); reflexivity.
      * generalize (after_opening w _ _ _ _ (target_of w signer) HL).
        apply Forall_impl. intros e [[_ He] | He]; destruct e; auto; discriminate.
    + constructor; [reflexivity|].
      rewrite Forall_app. split.
      * apply Forall_forall. intros e He.
        apply in_flat_map in He as (q & _ & [<- | [<- | []]]); reflexivity.
      * generalize (after_opening w _ _ _ _ (target_of w signer) HL).
        apply Forall_impl. intros e [[_ He] | He]; destruct e; auto; discriminate.
Qed.

Lemma getAccount_follows_target_connection_witness :
  trace no_seed_world =
    firstn 3 (trace no_seed_world) ++ EvGetAccount "//Alice" :: [] /\
  "//Alice" = accountSeed (env_config no_seed_world) /\
  firstn 3 (trace no_seed_world) =
    [EvLoadConfig;
     EvNewWsProvider (target_provider no_seed_world);
     EvApiCreate (target_provider no_seed_world) (Some types)] /\
  env_reachable no_seed_world (target_provider no_seed_world) = true /\
  Forall (fun e => is_getAccount e = false) [].
Proof.
  split; [reflexivity|].
  apply (getAccount_follows_target_connection no_seed_world
           (firstn 3 (trace no_seed_world)) "//Alice" []).
  reflexivity.
Defined.

(** X5: [processBlocks] is called only after the joint await has yielded
    every Source: when it is called, for each configured source url the
    Source over that url's connection has been constructed and
    [subscribeBlocks()] has been called on it, and the i-th subscription
    handed over is that of the i-th url. *)
Theorem processBlocks_after_all_sources w pre target subs post i url :
  trace w = pre ++ EvProcessBlocks target subs :: post ->
  nth_error (sourceChainUrls (env_config w)) i = Some url ->
  exists chain,
    env_chain w (source_api_of {| provider_id := S i; endpoint := url |}) = Some chain /\
    In (EvNewSource (source_api_of {| provider_id := S i; endpoint := url |}) chain) pre /\
    In (EvSubscribeBlocks (source_of {| provider_id := S i; endpoint := url |} chain)) pre /\
    nth_error subs i =
      Some (subscribeBlocks (source_of {| provider_id := S i; endpoint := url |} chain)).
Proof.
  unfold trace. intros Htr Hi.
  assert (Hno : forall evs, Forall (fun x => is_processBlocks x = false) evs ->
                            evs <> pre ++ EvProcessBlocks target subs :: post).
  { intros evs Hall ->. rewrite Forall_app in Hall. destruct Hall as [_ Hall].
    inversion Hall; discriminate. }
  run_cases w; rewrite Hrun in Htr; cbn [fst] in Htr.
  1,2: exfalso; eapply Hno; [|exact Htr]; repeat constructor.
  assert (Hquiet : Forall (fun e => is_processBlocks e = false)
                     (startup_events w signer ++ open_events (source_providers w) ++ evs)).
  { rewrite !Forall_app. repeat split.
    - repeat constructor.
    - apply Forall_forall. intros e He.
      apply in_flat_map in He as (q & _ & [<- | [<- | []]]); reflexivity.
    - generalize (Loop_events _ _ _ _ _ HL). apply Forall_impl. now intros []. }
  destruct r as [sources | e |].
  2,3: exfalso; eapply Hno; [|exact Htr]; now rewrite app_nil_r.
  unfold wiring_events in Htr. rewrite !app_assoc in Htr.
  apply cut_unique with (P := is_processBlocks) in Htr as (-> & [= -> ->] & ->);
    try reflexivity; [| | repeat constructor].
  2:{ rewrite Forall_app. split; [now rewrite <- !app_assoc|].
      apply Forall_map, Forall_forall. reflexivity. }
  pose proof (Loop_values _ _ _ _ _ HL (connecting_ok w _)) as Hv.
  rewrite map_fst_connecting in Hv.
  assert (Hp : nth_error (source_providers w) i =
               Some {| provider_id := S i; endpoint := url |}).
  { unfold source_providers. rewrite nth_error_providers_from, Hi. reflexivity. }
  destruct (Forall2_nth_error_left _ _ _ Hv _ _ Hp) as (s & Hs & _ & c & Hc & ->).
  exists c. split; [assumption|].
  assert (Hin : In (source_of {| provider_id := S i; endpoint := url |} c) sources).
  { eapply nth_error_In; eassumption. }
  repeat split.
  - rewrite !in_app_iff. left. right.
    pose proof (Loop_interleaving _ _ _ _ _ HL (connecting_ok w _)) as Hil.
    rewrite (proj1 (pending_connecting w _ _ Hv)) in Hil.
    apply (Interleaving_In _ _ Hil
             (source_calls (source_of {| provider_id := S i; endpoint := url |} c))).
    + now apply in_map.
    + right. now left.
  - rewrite in_app_iff. right. now apply in_map.
  - now apply map_nth_error.
Qed.

Lemma processBlocks_after_all_sources_witness :
  trace (sample_world [] [1; 1; 0; 0]) =
    firstn 15 (trace (sample_world [] [1; 1; 0; 0])) ++
    EvProcessBlocks sample_target (map subscribeBlocks sample_sources) ::
    [EvSubscribe sample_pipeline] /\
  nth_error (sourceChainUrls (env_config (sample_world [] [1; 1; 0; 0]))) 0 = Some "ws://a" /\
  exists chain,
    env_chain (sample_world [] [1; 1; 0; 0])
      (source_api_of {| provider_id := 1; endpoint := "ws://a" |}) = Some chain /\
    In (EvNewSource (source_api_of {| provider_id := 1; endpoint := "ws://a" |}) chain)
       (firstn 15 (trace (sample_world [] [1; 1; 0; 0]))) /\
    In (EvSubscribeBlocks (source_of {| provider_id := 1; endpoint := "ws://a" |} chain))
       (firstn 15 (trace (sample_world [] [1; 1; 0; 0]))) /\
    nth_error (map subscribeBlocks sample_sources) 0 =
      Some (subscribeBlocks (source_of {| provider_id := 1; endpoint := "ws://a" |} chain)).
Proof.
  split; [reflexivity|]. split; [reflexivity|].
  apply (processBlocks_after_all_sources (sample_world [] [1; 1; 0; 0])
           (firstn 15 (trace (sample_world [] [1; 1; 0; 0])))
           sample_target (map subscribeBlocks sample_sources)
           [EvSubscribe sample_pipeline] 0 "ws://a"); reflexivity.
Defined.

(** X6: in every run, also one that fails later, a Source is constructed
    only over the connection to a configured source url, after that
    connection was opened and resolved and after its chain identity was
    queried on it, and with the identity that query reported. *)
Theorem source_built_after_its_identity_query w pre api chain post :
  trace w = pre ++ EvNewSource api chain :: post ->
  exists i url,
    nth_error (sourceChainUrls (env_config w)) i = Some url /\
    api = {| api_provider := {| provider_id := S i; endpoint := url |};
             api_types := None |} /\
    env_reachable w {| provider_id := S i; endpoint := url |} = true /\
    env_chain w api = Some chain /\
    In (EvApiCreate {| provider_id := S i; endpoint := url |} None) pre /\
    In (EvSystemChain api) pre.
Proof.
  unfold trace. intros Htr.
  assert (Hno : forall evs, Forall (fun x => is_newSource x = false) evs ->
                            evs <> pre ++ EvNewSource api chain :: post).
  { intros evs Hall ->. rewrite Forall_app in Hall. destruct Hall as [_ Hall].
    inversion Hall; discriminate. }
  run_cases w; rewrite Hrun in Htr; cbn [fst] in Htr.
  1,2: exfalso; eapply Hno; [|exact Htr]; repeat constructor.
  rewrite app_assoc in Htr.
  apply cut_in_second with (P := is_newSource) in Htr as (pre' & -> & Htr);
    [| | reflexivity].
  2:{ rewrite Forall_app. split; [repeat constructor|].
      apply Forall_forall. intros e He.
      apply in_flat_map in He as (q & _ & [<- | [<- | []]]); reflexivity. }
  apply cut_in_first with (P := is_newSource) in Htr as (post' & Hevs & _);
    [| | reflexivity].
  2:{ destruct r; auto. generalize (wiring_events_wiring (target_of w signer) a).
      apply Forall_impl. now intros []. }
  destruct (Loop_sources _ _ _ _ _ HL (connecting_ok w _) _ _ _ _ Hevs)
    as (p & Hp & -> & Hr & Hc & Hb).
  rewrite map_fst_connecting in Hp.
  destruct (In_source_providers w p Hp) as (i & url & Hi & ->).
  exists i, url. repeat split; auto.
  - rewrite !in_app_iff. left. right. apply in_flat_map.
    exists {| provider_id := S i; endpoint := url |}. split; [assumption|].
    right. now left.
  - destruct Hb as [Hb | Hb]; [rewrite in_app_iff; now right|].
    unfold connecting in Hb. apply in_map_iff in Hb as (q & [=] & _).
Qed.

Lemma source_built_after_its_identity_query_witness :
  trace (sample_world ["ws://b"] [0; 0; 0; 0]) =
    firstn 10 (trace (sample_world ["ws://b"] [0; 0; 0; 0])) ++
    EvNewSource (source_api_of {| provider_id := 1; endpoint := "ws://a" |}) "ws://a" :: [] /\
  outcome (sample_world ["ws://b"] [0; 0; 0; 0]) = Thrown (ConnectionError "ws://b") /\
  exists i url,
    nth_error (sourceChainUrls (env_config (sample_world ["ws://b"] [0; 0; 0; 0]))) i
      = Some url /\
    source_api_of {| provider_id := 1; endpoint := "ws://a" |} =
      {| api_provider := {| provider_id := S i; endpoint := url |}; api_types := None |} /\
    env_reachable (sample_world ["ws://b"] [0; 0; 0; 0])
      {| provider_id := S i; endpoint := url |} = true /\
    env_chain (sample_world ["ws://b"] [0; 0; 0; 0])
      (source_api_of {| provider_id := 1; endpoint := "ws://a" |}) = Some "ws://a" /\
    In (EvApiCreate {| provider_id := S i; endpoint := url |} None)
       (firstn 10 (trace (sample_world ["ws://b"] [0; 0; 0; 0]))) /\
    In (EvSystemChain (source_api_of {| provider_id := 1; endpoint := "ws://a" |}))
       (firstn 10 (trace (sample_world ["ws://b"] [0; 0; 0; 0]))).
Proof.
  split; [reflexivity|]. split; [reflexivity|].
  apply (source_built_after_its_identity_query (sample_world ["ws://b"] [0; 0; 0; 0])
           (firstn 10 (trace (sample_world ["ws://b"] [0; 0; 0; 0])))
           (source_api_of {| provider_id := 1; endpoint := "ws://a" |}) "ws://a" []).
  reflexivity.
Defined.

(** X8: the top-level function returns exactly when the target connects,
    the seed yields a key pair, every configured source connects and answers
    its identity query, and the environment has let every awaited promise
    (two per source) settle. *)
Theorem returns_iff_startup_succeeds w :
  outcome w = Normal tt <-> startup_succeeds w.
Proof.
  split.
  - unfold outcome. run_cases w; rewrite Hrun; cbn [snd]; try discriminate.
    destruct r as [sources | e |]; try discriminate. intros _.
    pose proof (Loop_values _ _ _ _ _ HL (connecting_ok w _)) as Hv.
    rewrite map_fst_connecting in Hv.
    pose proof (Loop_awaits _ _ _ _ _ HL) as Hlen.
    rewrite total_awaits_connecting in Hlen. unfold source_providers in Hlen.
    rewrite length_providers_from in Hlen.
    repeat split; [assumption | congruence | | assumption].
    eapply built_sources_healthy; eassumption.
  - intros H. unfold outcome.
    destruct (run_success w H) as (signer & sources & settling & _ & _ & _ & _ & ->).
    reflexivity.
Qed.

(** X9: whatever the number of sources, a run loads the config once,
    constructs at most one Target, and calls [processBlocks] and
    [subscribe] once each when the top-level function returns and never
    otherwise. *)
Theorem one_target_one_pipeline w :
  length (filter is_loadConfig (trace w)) = 1 /\
  length (filter is_newTarget (trace w)) <= 1 /\
  length (filter is_processBlocks (trace w)) =
    match outcome w with Normal _ => 1 | _ => 0 end /\
  length (filter is_subscribe (trace w)) =
    match outcome w with Normal _ => 1 | _ => 0 end.
Proof.
  unfold trace, outcome. run_cases w; rewrite Hrun; cbn [fst snd].
  - cbn. repeat split; lia.
  - cbn. repeat split; lia.
  - assert (Hmid : forall P : Event -> bool,
              (forall p, P (EvNewWsProvider p) = false) ->
              (forall p t, P (EvApiCreate p t) = false) ->
              (forall a, P (EvSystemChain a) = false) ->
              (forall a c, P (EvNewSource a c) = false) ->
              filter P (open_events (source_providers w) ++ evs) = []).
    { intros P Hnew Hcreate Hchain Hsource. apply filter_none. rewrite Forall_app. split.
      - apply Forall_forall. intros e He.
        apply in_flat_map in He as (q & _ & [<- | [<- | []]]); auto.
      - generalize (Loop_events _ _ _ _ _ HL). apply Forall_impl.
        intros e He. destruct e; try discriminate; auto. }
    assert (Hsub : forall (P : Event -> bool) sources,
              (forall s, P (EvSubscribeBlocks s) = false) ->
              filter P (map EvSubscribeBlocks sources) = []).
    { intros P sources HP. apply filter_none, Forall_map, Forall_forall. auto. }
    rewrite !app_assoc, <- (app_assoc (startup_events w signer)).
    rewrite !(filter_app _ _ (match r with
                              | Normal sources => wiring_events (target_of w signer) sources
                              | _ => []
                              end)).
    rewrite !(filter_app _ (startup_events w signer)).
    rewrite !Hmid by reflexivity.
    destruct r as [sources | e |]; unfold wiring_events;
      rewrite ?filter_app, ?Hsub by reflexivity; cbn; repeat split; lia.
Qed.

(** X10: while a source promise is still pending nothing is relayed, not
    even from the sources that have answered: with a reachable target, a
    valid seed and healthy sources, as long as fewer than all awaited source
    promises have settled the top-level function stays suspended, nothing is
    wired, and the process does not exit. *)
Theorem pending_source_blocks_all_relaying w :
  env_reachable w (target_provider w) = true ->
  env_keyring w (accountSeed (env_config w)) <> None ->
  Forall (source_healthy w) (source_providers w) ->
  length (env_io_order w) < 2 * length (sourceChainUrls (env_config w)) ->
  outcome w = Stalled /\
  exit_code (outcome w) = None /\
  Forall (fun e => wiring_event e = false) (trace w).
Proof.
  intros Ht Hk Hh Hlen. unfold outcome, trace.
  destruct (env_keyring w (accountSeed (env_config w))) as [signer|] eqn:Ek;
    [clear Hk | congruence].
  destruct (run_connected w signer Ht Ek) as (evs & r & HL & ->). cbn [fst snd].
  destruct r as [sources | e |].
  - exfalso. pose proof (Loop_awaits _ _ _ _ _ HL) as Hle.
    rewrite total_awaits_connecting in Hle. unfold source_providers in Hle.
    rewrite length_providers_from in Hle. lia.
  - exfalso. eapply Loop_healthy; eauto; [|apply connecting_ok].
    now rewrite map_fst_connecting.
  - repeat split. eapply before_wiring; eassumption.
Qed.

Lemma pending_source_blocks_all_relaying_witness :
  length (env_io_order (sample_world [] [0; 0; 1])) < 2 * 2 /\
  In (EvNewSource (source_api_of {| provider_id := 1; endpoint := "ws://a" |}) "ws://a")
     (trace (sample_world [] [0; 0; 1])) /\
  outcome (sample_world [] [0; 0; 1]) = Stalled /\
  exit_code (outcome (sample_world [] [0; 0; 1])) = None /\
  Forall (fun e => wiring_event e = false) (trace (sample_world [] [0; 0; 1])).
Proof.
  split; [cbn; lia|]. split; [vm_compute; tauto|].
  apply (pending_source_blocks_all_relaying (sample_world [] [0; 0; 1])).
  - reflexivity.
  - discriminate.
  - repeat constructor; discriminate.
  - cbn. lia.
Defined.
